(** * RNGClass.h: a thread-safe wrapper around the BCrypt random provider

    Shallow embedding of [RNGClass<T>] and of the two [SimpleRandom]
    overloads of [src/RNGClass.h].

    - Every member function is a program in a small resumption monad
      [prog]: a tree whose nodes are the atomic accesses the C++ code makes
      to the shared object and to the operating system (one node per
      statement that touches shared state; the two statements guarded by
      [count_muter] are one node each).
    - [run] executes one program alone, start to end (a single thread).
    - [step]/[exec] interleave several callers with the destructor, one
      atomic access at a time, following a schedule.

    Integers are [Z]; the wrap-around of [unsigned long long], of the
    generator's result type [T] and of [int] is written out. [assert] is
    taken as compiled in. [FloatingRand] has the control flow of
    [CustomRand] around a floating-point distribution and is left out. *)

From Stdlib Require Import ZArith List Bool Lia.
Import ListNotations.
Local Open Scope Z_scope.

(** ** Integer types *)

(** An integral type: its width in bits and its signedness. *)
Record int_type : Type := IntType { bits : Z; is_signed : bool }.

Definition type_min (U : int_type) : Z :=
  if is_signed U then - 2 ^ (bits U - 1) else 0.

Definition type_max (U : int_type) : Z :=
  if is_signed U then 2 ^ (bits U - 1) - 1 else 2 ^ bits U - 1.

Definition c_int : int_type := IntType 32 true.

Definition INT_MIN : Z := type_min c_int.
Definition INT_MAX : Z := type_max c_int.

(** Reduction modulo [2^w]: the value an unsigned [w]-bit object holds. *)
Definition wrap (w : Z) (v : Z) : Z := v mod 2 ^ w.

(** [unsigned long long pending_count]. *)
Definition wrap64 (v : Z) : Z := wrap 64 v.

(** [(int)u] for an [unsigned int] [u]: the two's complement reading. *)
Definition to_int (u : Z) : Z :=
  let r := wrap 32 u in if r <? 2 ^ 31 then r else r - 2 ^ 32.

(** [std::abs(int)]: the negation of a negative argument is computed in
    [int]. For [INT_MIN] the mathematical result is not representable (the
    C++ standard leaves the call undefined); the model keeps what the
    two's complement negation yields. *)
Definition std_abs (x : Z) : Z :=
  if x <? 0 then to_int (- x) else x.

(** ** The operating system's provider and the generator object *)

(** A [BCRYPT_ALG_HANDLE] is a [PVOID]. The code passes three kinds of
    pointers to the provider. *)
Inductive pvoid : Type :=
| Indeterminate                (* [algorithm_handle] before any open *)
| ProviderObj (id : nat)       (* a handle BCryptOpenAlgorithmProvider returned *)
| AddrOfHandleField.           (* [&this->algorithm_handle] *)

(** Calls received by the provider, oldest first. *)
Inductive provider_call : Type :=
| Opened (id : nat)
| OpenFailed
| Closed (arg : pvoid)
| Filled (arg : pvoid).

(** What one [BCryptGenRandom] call does to the caller's buffer [number],
    which the code never initialises: either the provider writes all
    [sizeof(T)] bytes, or it fails with a status and the buffer keeps
    whatever it held. *)
Inductive fill : Type :=
| FillOk (bytes : Z)
| FillFail (ntstatus : Z) (leftover : Z).

(** The environment: the outcome of the n-th [BCryptGenRandom] call, to
    which an environment applies as a function, and whether a
    [BCryptOpenAlgorithmProvider] issued as the provider's call number [n]
    succeeds. *)
Record provider_env : Type := ProviderEnv {
  fill_outcome :> nat -> fill;
  open_succeeds : nat -> bool
}.

Record world : Type := World {
  (* RNGClass<T> data members *)
  initialized : bool;
  algorithm_handle : pvoid;
  dying : bool;
  pending_count : Z;
  (* the provider *)
  next_id : nat;             (* next fresh handle *)
  live : list nat;           (* handles currently open *)
  calls : list provider_call;(* calls received, oldest first *)
  draws : nat                (* number of BCryptGenRandom calls so far *)
}.

(** [RNGClass() : initialized(false), dying(false), pending_count(0) {}];
    [algorithm_handle] is left indeterminate. *)
Definition constructed : world :=
  World false Indeterminate false 0 0%nat [] [] 0%nat.

Definition set_initialized (b : bool) (s : world) : world :=
  World b (algorithm_handle s) (dying s) (pending_count s)
        (next_id s) (live s) (calls s) (draws s).

Definition set_dying (b : bool) (s : world) : world :=
  World (initialized s) (algorithm_handle s) b (pending_count s)
        (next_id s) (live s) (calls s) (draws s).

Definition set_pending (n : Z) (s : world) : world :=
  World (initialized s) (algorithm_handle s) (dying s) n
        (next_id s) (live s) (calls s) (draws s).

(** [BCryptOpenAlgorithmProvider(&this->algorithm_handle, ...)]: when it
    succeeds the provider stores a fresh handle through the pointer; when
    it fails it is taken to store nothing, so that the member keeps what it
    held. The code drops the returned status either way. *)
Definition provider_open (ok : bool) (s : world) : world :=
  if ok then
    World (initialized s) (ProviderObj (next_id s)) (dying s) (pending_count s)
          (S (next_id s)) (live s ++ [next_id s])
          (calls s ++ [Opened (next_id s)]) (draws s)
  else
    World (initialized s) (algorithm_handle s) (dying s) (pending_count s)
          (next_id s) (live s) (calls s ++ [OpenFailed]) (draws s).

Definition remove_handle (arg : pvoid) (l : list nat) : list nat :=
  match arg with
  | ProviderObj id => filter (fun h => negb (Nat.eqb h id)) l
  | _ => l
  end.

(** [BCryptCloseAlgorithmProvider(arg, NULL)]: an open handle is released;
    any other pointer is not a handle and nothing is released. *)
Definition provider_close (arg : pvoid) (s : world) : world :=
  World (initialized s) (algorithm_handle s) (dying s) (pending_count s)
        (next_id s) (remove_handle arg (live s))
        (calls s ++ [Closed arg]) (draws s).

Definition is_live (arg : pvoid) (s : world) : bool :=
  match arg with
  | ProviderObj id => existsb (Nat.eqb id) (live s)
  | _ => false
  end.

(** The contents of [number] after the fill. *)
Definition number_after (w : Z) (f : fill) : Z :=
  match f with
  | FillOk bytes => wrap w bytes
  | FillFail _ leftover => wrap w leftover
  end.

Definition provider_fill (arg : pvoid) (s : world) : world :=
  World (initialized s) (algorithm_handle s) (dying s) (pending_count s)
        (next_id s) (live s) (calls s ++ [Filled arg]) (S (draws s)).

(** ** Programs *)

(** [throw std::exception("RNG called after destruction scheduled")]. *)
Inductive exn : Type := ShutdownError.

(** Atomic accesses, indexed by the type of what they yield. *)
Inductive action : Type -> Type :=
| ReadDying : action bool
| WriteDying (b : bool) : action unit
| ReadInitialized : action bool
| WriteInitialized (b : bool) : action unit
| ReadHandle : action pvoid
| ReadPending : action Z
| LockedIncrement : action unit  (* lock_guard(count_muter); pending_count += 1 *)
| LockedDecrement : action unit  (* lock_guard(count_muter); pending_count -= 1 *)
| BCryptOpenAlgorithmProvider : action unit
| BCryptCloseAlgorithmProvider (arg : pvoid) : action unit
| BCryptGenRandom (arg : pvoid) (width : Z) : action Z.  (* width = 8 * sizeof(number) *)

Inductive prog (A : Type) : Type :=
| Ret (a : A)
| Throw (e : exn)
| AssertFail                      (* [assert] failed: the process aborts *)
| Undefined                       (* a library precondition was violated *)
| Spin                            (* the loop bound of the model ran out *)
| Act (X : Type) (a : action X) (k : X -> prog A)
| Block (k : prog A).             (* [condition_variable::wait(lock)] *)

Arguments Ret {A} a.
Arguments Throw {A} e.
Arguments AssertFail {A}.
Arguments Undefined {A}.
Arguments Spin {A}.
Arguments Act {A X} a k.
Arguments Block {A} k.

Fixpoint bind {A B : Type} (p : prog A) (f : A -> prog B) : prog B :=
  match p with
  | Ret a => f a
  | Throw e => Throw e
  | AssertFail => AssertFail
  | Undefined => Undefined
  | Spin => Spin
  | Act a k => Act a (fun x => bind (k x) f)
  | Block k => Block (bind k f)
  end.

Definition perform_ {X : Type} (a : action X) : prog X := Act a Ret.

(** [try { p } catch (...) { h }]. *)
Fixpoint try_catch {A : Type} (p : prog A) (h : exn -> prog A) : prog A :=
  match p with
  | Throw e => h e
  | Act a k => Act a (fun x => try_catch (k x) h)
  | Block k => Block (try_catch k h)
  | other => other
  end.

(** [catch (...) { throw; }]. *)
Definition rethrow {A : Type} (e : exn) : prog A := Throw e.

(** [assert(cond)]. *)
Definition assert_ (cond : bool) : prog unit :=
  if cond then Ret tt else AssertFail.

Declare Scope prog_scope.
Delimit Scope prog_scope with prog.
Notation "x <- p ;; q" := (bind p (fun x => q))
  (at level 61, p at next level, right associativity) : prog_scope.
Notation "p ;; q" := (bind p (fun _ => q))
  (at level 61, right associativity) : prog_scope.
Local Open Scope prog_scope.

(** ** Meaning of the atomic accesses *)

Section Semantics.

Variable env : provider_env.

Definition perform {X : Type} (a : action X) (s : world) : X * world :=
  match a in action X return X * world with
  | ReadDying => (dying s, s)
  | WriteDying b => (tt, set_dying b s)
  | ReadInitialized => (initialized s, s)
  | WriteInitialized b => (tt, set_initialized b s)
  | ReadHandle => (algorithm_handle s, s)
  | ReadPending => (pending_count s, s)
  | LockedIncrement => (tt, set_pending (wrap64 (pending_count s + 1)) s)
  | LockedDecrement => (tt, set_pending (wrap64 (pending_count s - 1)) s)
  | BCryptOpenAlgorithmProvider =>
      (tt, provider_open (open_succeeds env (length (calls s))) s)
  | BCryptCloseAlgorithmProvider arg => (tt, provider_close arg s)
  | BCryptGenRandom arg width =>
      (number_after width (env (draws s)), provider_fill arg s)
  end.

(** How a call ends when nothing else runs. [Blocked]: the thread sleeps
    on a condition variable that nobody else can reach. *)
Inductive outcome (A : Type) : Type :=
| Returned (a : A)
| Threw (e : exn)
| Aborted
| UndefinedBehaviour
| OutOfFuel
| Blocked.

Fixpoint run {A : Type} (p : prog A) (s : world) : outcome A * world :=
  match p with
  | Ret a => (Returned A a, s)
  | Throw e => (Threw A e, s)
  | AssertFail => (Aborted A, s)
  | Undefined => (UndefinedBehaviour A, s)
  | Spin => (OutOfFuel A, s)
  | Act a k => let (x, s') := perform a s in run (k x) s'
  | Block _ => (Blocked A, s)
  end.

End Semantics.

Arguments Returned {A} a.
Arguments Threw {A} e.
Arguments Aborted {A}.
Arguments UndefinedBehaviour {A}.
Arguments OutOfFuel {A}.
Arguments Blocked {A}.

(** ** The member functions of [RNGClass<T>] *)

Section RNGClass.

(** Width in bits of the unsigned result type [T]. *)
Variable Tbits : Z.

(** [static T min()] and [static T max()]. *)
Definition min_ : Z := 0.
Definition max_ : Z := 2 ^ Tbits - 1.

(** [void IncrementCount()]: the test of [dying] is made before, and
    outside, the section that [count_muter] guards. *)
Definition IncrementCount : prog unit :=
  d <- perform_ ReadDying ;;
  if d then Throw ShutdownError
  else perform_ LockedIncrement.

(** [void DecrementCount()]. *)
Definition DecrementCount : prog unit :=
  perform_ LockedDecrement.

(** [void Initialize(bool reinitialize = false)]. *)
Definition Initialize (reinitialize : bool) : prog unit :=
  let acquire :=
    perform_ BCryptOpenAlgorithmProvider ;;
    perform_ (WriteInitialized true) in
  i <- perform_ ReadInitialized ;;
  if i then
    if reinitialize then
      perform_ (WriteInitialized false) ;;
      perform_ (BCryptCloseAlgorithmProvider AddrOfHandleField) ;;
      acquire
    else Ret tt
  else acquire.

(** [result_type operator()()]. *)
Definition operator_call : prog Z :=
  try_catch IncrementCount rethrow ;;
  i <- perform_ ReadInitialized ;;
  (if negb i then Initialize false else Ret tt) ;;
  h <- perform_ ReadHandle ;;
  number <- perform_ (BCryptGenRandom h Tbits) ;;
  DecrementCount ;;
  Ret number.

(** The number of raw values of [Tbits] bits it takes to tell [n]
    candidates apart. *)
Definition words_needed (n : Z) : nat :=
  Z.to_nat ((Z.log2_up n + Tbits - 1) / Tbits).

(** [k] calls of the raw source [g], read as one number in base
    [2^Tbits]. *)
Fixpoint gather (g : prog Z) (k : nat) (acc : Z) : prog Z :=
  match k with
  | O => Ret acc
  | S k' => x <- g ;; gather g k' (acc * 2 ^ Tbits + x)
  end.

(** The largest multiple of [n] among the [2^(Tbits * k)] numbers that [k]
    raw values can form: below it every residue is equally likely. *)
Definition unbiased_limit (n : Z) (k : nat) : Z :=
  let space := 2 ^ (Tbits * Z.of_nat k) in space - space mod n.

(** Rejection sampling of a number in [0, n): draw, keep the residue of a
    draw below the limit, retry otherwise. [fuel] bounds the attempts. *)
Fixpoint rejection (fuel : nat) (g : prog Z) (n : Z) (k : nat) : prog Z :=
  match fuel with
  | O => Spin
  | S fuel' =>
      r <- gather g k 0 ;;
      if r <? unbiased_limit n k then Ret (r mod n)
      else rejection fuel' g n k
  end.

(** Modelled from the spec: [std::uniform_int_distribution<U>(a, b)(g)] is
    the standard library's and its code is not part of this repository.
    The spec has it as rejection sampling over raw [generate()] outputs
    yielding a value in the inclusive range; the library requires
    [a <= b]. *)
Definition uniform_int_distribution
    (fuel : nat) (a b : Z) (g : prog Z) : prog Z :=
  if b <? a then Undefined
  else
    let n := b - a + 1 in
    r <- rejection fuel g n (words_needed n) ;;
    Ret (a + r).

(** [result_type operator()(result_type floor, result_type roof)]. *)
Definition operator_call_range (fuel : nat) (floor roof : Z) : prog Z :=
  assert_ (floor <? roof) ;;
  try_catch IncrementCount rethrow ;;
  number <- uniform_int_distribution fuel floor roof operator_call ;;
  DecrementCount ;;
  Ret number.

(** [result_type GetRand()]. *)
Definition GetRand : prog Z :=
  try_catch operator_call rethrow.

(** [result_type GetRand(result_type floor, result_type roof)]. *)
Definition GetRand_range (fuel : nat) (floor roof : Z) : prog Z :=
  try_catch (operator_call_range fuel floor roof) rethrow.

(** [template<typename cast_type> cast_type CustomRand(floor, roof)]. The
    bounds are values of [cast_type], which may be signed, where those of
    [operator()(floor, roof)] have been converted to [T]. *)
Definition CustomRand (fuel : nat) (floor roof : Z) : prog Z :=
  assert_ (floor <? roof) ;;
  try_catch IncrementCount rethrow ;;
  number <- uniform_int_distribution fuel floor roof operator_call ;;
  DecrementCount ;;
  Ret number.

(** [CustomRand<cast_type>()] with both bounds omitted. *)
Definition CustomRand_default (fuel : nat) (cast_type : int_type) : prog Z :=
  CustomRand fuel (type_min cast_type) (type_max cast_type).

(** [condition.wait(lock)]. *)
Definition cv_wait : prog unit := Block (Ret tt).

(** [condition.wait(lock, pred)] is [while (!pred()) wait(lock);] with
    [pred] reading [pending_count]. [fuel] bounds the number of
    evaluations of [pred]. *)
Fixpoint condition_wait (fuel : nat) : prog unit :=
  match fuel with
  | O => Spin
  | S fuel' =>
      c <- perform_ ReadPending ;;
      if c =? 0 then Ret tt
      else cv_wait ;; condition_wait fuel'
  end.

(** [~RNGClass()]. [condition] is a local of the destructor and
    [destruction_muter] is locked by the destructor only. *)
Definition destructor (fuel : nat) : prog unit :=
  perform_ (WriteDying true) ;;
  condition_wait fuel ;;
  perform_ (WriteInitialized false) ;;
  h <- perform_ ReadHandle ;;
  perform_ (BCryptCloseAlgorithmProvider h).

End RNGClass.

(** ** The convenience functions *)

(** [static int SimpleRandom()], on its [static RNGClass<unsigned int> rng]. *)
Definition SimpleRandom : prog Z :=
  r <- operator_call 32 ;;
  Ret (std_abs (to_int r)).

(** [static int SimpleRandom(int floor, int roof)]. *)
Definition SimpleRandom_range (fuel : nat) (floor roof : Z) : prog Z :=
  uniform_int_distribution 32 fuel floor roof (operator_call 32).

(** ** Interleaved execution *)

(** Threads calling the generator, and the thread destroying it. *)
Record config : Type := Config {
  shared : world;
  callers : list (prog Z);
  teardown : prog unit
}.

Inductive label : Type :=
| Caller (i : nat)     (* caller [i] makes its next atomic access *)
| Teardown             (* the destructor makes its next atomic access *)
| SpuriousWakeup.      (* the destructor's [wait] returns unnotified *)

(** [l] with its [i]-th element replaced by [x]. *)
Fixpoint set_nth {A : Type} (i : nat) (x : A) (l : list A) : list A :=
  match l, i with
  | [], _ => []
  | _ :: t, O => x :: t
  | h :: t, S i' => h :: set_nth i' x t
  end.

Section Interleaving.

Variable env : provider_env.

(** A thread makes the access it stands before. *)
Definition advance {A : Type} (p : prog A) (s : world)
  : option (prog A * world) :=
  match p with
  | Act a k => let (x, s') := perform env a s in Some (k x, s')
  | _ => None
  end.

(** A sleeping thread resumes. Nothing in the code notifies the
    destructor's condition variable, so this happens spuriously or never. *)
Definition wake {A : Type} (p : prog A) : option (prog A) :=
  match p with
  | Block k => Some k
  | _ => None
  end.

Definition step (l : label) (c : config) : option config :=
  match l with
  | Caller i =>
      match nth_error (callers c) i with
      | Some p =>
          match advance p (shared c) with
          | Some (p', s') => Some (Config s' (set_nth i p' (callers c)) (teardown c))
          | None => None
          end
      | None => None
      end
  | Teardown =>
      match advance (teardown c) (shared c) with
      | Some (p', s') => Some (Config s' (callers c) p')
      | None => None
      end
  | SpuriousWakeup =>
      match wake (teardown c) with
      | Some p' => Some (Config (shared c) (callers c) p')
      | None => None
      end
  end.

Fixpoint exec (schedule : list label) (c : config) : option config :=
  match schedule with
  | [] => Some c
  | l :: rest =>
      match step l c with
      | Some c' => exec rest c'
      | None => None
      end
  end.

End Interleaving.

(** What can be seen of a thread: how it ended, that it sleeps in [wait],
    or the access it is about to make. *)
Inductive position (A : Type) : Type :=
| Ended (o : outcome A)
| Asleep
| Before (X : Type) (a : action X).

Arguments Ended {A} o.
Arguments Asleep {A}.
Arguments Before {A X} a.

Definition position_of {A : Type} (p : prog A) : position A :=
  match p with
  | Ret a => Ended (Returned a)
  | Throw e => Ended (Threw e)
  | AssertFail => Ended Aborted
  | Undefined => Ended UndefinedBehaviour
  | Spin => Ended OutOfFuel
  | Act a _ => Before a
  | Block _ => Asleep
  end.

(** What can be seen of a configuration. *)
Record snapshot : Type := Snapshot {
  seen : world;
  at_callers : list (position Z);
  at_teardown : position unit
}.

Definition observe (c : config) : snapshot :=
  Snapshot (shared c) (map position_of (callers c)) (position_of (teardown c)).

(** The configuration a schedule leads to, if every step of it is enabled. *)
Definition after (env : provider_env) (schedule : list label) (c : config)
  : option snapshot :=
  option_map observe (exec env schedule c).

(** ** Vocabulary of the statements *)

(** How the result of a first part carries over to the whole. *)
Definition and_then {A B : Type} (env : provider_env)
    (r : outcome A * world) (f : A -> prog B) : outcome B * world :=
  match r with
  | (Returned a, s) => run env (f a) s
  | (Threw e, s) => (Threw e, s)
  | (Aborted, s) => (Aborted, s)
  | (UndefinedBehaviour, s) => (UndefinedBehaviour, s)
  | (OutOfFuel, s) => (OutOfFuel, s)
  | (Blocked, s) => (Blocked, s)
  end.

(** The state a generation leaves behind once it is past the gate. *)
Definition after_generation (env : provider_env) (s : world) : world :=
  let s1 := set_pending (wrap64 (pending_count s + 1)) s in
  let s2 := if initialized s1 then s1
            else set_initialized true
                   (provider_open (open_succeeds env (length (calls s1))) s1) in
  let s3 := provider_fill (algorithm_handle s2) s2 in
  set_pending (wrap64 (pending_count s3 - 1)) s3.

(** The state [k] generations in a row leave behind. *)
Fixpoint generations (env : provider_env) (k : nat) (s : world) : world :=
  match k with
  | O => s
  | S k' => generations env k' (after_generation env s)
  end.

(** The number formed by the [k] raw values drawn from position [start]
    of the environment on. *)
Fixpoint gathered (env : provider_env) (Tbits : Z) (start k : nat) (acc : Z) : Z :=
  match k with
  | O => acc
  | S k' =>
      gathered env Tbits (S start) k'
               (acc * 2 ^ Tbits + number_after Tbits (env start))
  end.

(** The sampling attempt whose draws begin at position [start] is kept. *)
Definition accepted (env : provider_env) (Tbits n : Z) (start : nat) : bool :=
  gathered env Tbits start (words_needed Tbits n) 0
  <? unbiased_limit Tbits n (words_needed Tbits n).

(** Run alone from [s], [p] returns a value between [lo] and [hi]. *)
Definition yields_within (env : provider_env) (p : prog Z)
    (s : world) (lo hi : Z) : Prop :=
  exists v s', run env p s = (Returned v, s') /\ lo <= v <= hi.

(** Some run of [p], whatever the values its accesses yield and whatever
    runs beside it, ends in a thrown error. *)
Fixpoint can_throw {A : Type} (p : prog A) : Prop :=
  match p with
  | Throw _ => True
  | Act a k => exists x, can_throw (k x)
  | Block k => can_throw k
  | _ => False
  end.

(** The generation entry points over integers, with their arguments. *)
Inductive entry_point : Type :=
| EpCall
| EpCallRange (floor roof : Z)
| EpGetRand
| EpGetRandRange (floor roof : Z)
| EpCustomRand (floor roof : Z).

Definition invoke (Tbits : Z) (fuel : nat) (e : entry_point) : prog Z :=
  match e with
  | EpCall => operator_call Tbits
  | EpCallRange floor roof => operator_call_range Tbits fuel floor roof
  | EpGetRand => GetRand Tbits
  | EpGetRandRange floor roof => GetRand_range Tbits fuel floor roof
  | EpCustomRand floor roof => CustomRand Tbits fuel floor roof
  end.

(** The condition the entry point asserts on its arguments. *)
Definition range_precondition (e : entry_point) : bool :=
  match e with
  | EpCall | EpGetRand => true
  | EpCallRange floor roof
  | EpGetRandRange floor roof
  | EpCustomRand floor roof => floor <? roof
  end.

(** A provider that always fills the buffer with 7. *)
Definition steady_env : provider_env :=
  ProviderEnv (fun _ => FillOk 7) (fun _ => true).

Definition STATUS_INVALID_HANDLE : Z := 3221225480.

(** A provider whose fill always fails, the buffer holding 0xBEEF. *)
Definition failing_env : provider_env :=
  ProviderEnv (fun _ => FillFail STATUS_INVALID_HANDLE 48879) (fun _ => true).

(** A provider that always fills the buffer with 0x80000000. *)
Definition most_negative_env : provider_env :=
  ProviderEnv (fun _ => FillOk (2 ^ 31)) (fun _ => true).

(** A provider that always fills the buffer with 5. *)
Definition five_env : provider_env :=
  ProviderEnv (fun _ => FillOk 5) (fun _ => true).

(** A provider that refuses every open and fails every fill, the buffer
    holding 0xBEEF. *)
Definition refusing_env : provider_env :=
  ProviderEnv (fun _ => FillFail STATUS_INVALID_HANDLE 48879) (fun _ => false).

(** The generator after its first [Initialize()]. *)
Definition opened_once : world :=
  World true (ProviderObj 0) false 0 1%nat [0%nat] [Opened 0] 0%nat.

(** The raw generation at [s] either returns the bytes the provider
    wrote, or ends in an error. *)
Definition fill_or_error (env : provider_env) (Tbits : Z) (s : world) : Prop :=
  (exists bytes, env (draws s) = FillOk bytes /\
     fst (run env (operator_call Tbits) s) = Returned (wrap Tbits bytes))
  \/ (exists e, fst (run env (operator_call Tbits) s) = Threw e).

(** A caller in [operator()()] racing with the destructor. *)
Definition caller_and_teardown : config :=
  Config opened_once [operator_call 32] (destructor 2).

(** A caller in [operator()(1, 10)] racing with the destructor. *)
Definition range_caller_and_teardown : config :=
  Config opened_once [operator_call_range 32 3 1 10] (destructor 2).

(** The caller passes the [dying] test; the destructor sets [dying], finds
    [pending_count == 0] and goes on; the caller increments the count, finds
    the generator initialised and fetches the handle; the destructor clears
    [initialized] and fetches the handle. *)
Definition release_race : list label :=
  [Caller 0; Teardown; Teardown; Caller 0; Caller 0; Caller 0;
   Teardown; Teardown]%nat.

(** The caller passes the [dying] test and increments the count; the
    destructor sets [dying]; the distribution calls [operator()()], whose
    own [dying] test throws. *)
Definition shutdown_inside_range_call : list label :=
  [Caller 0; Caller 0; Teardown; Caller 0]%nat.

(** The caller enters; the destructor sets [dying], finds the count at one
    and waits; the caller generates and leaves. *)
Definition drain : list label :=
  [Caller 0; Caller 0; Teardown; Teardown;
   Caller 0; Caller 0; Caller 0; Caller 0]%nat.

(** A caller in [CustomRand<int>(1, 10)] racing with the destructor. *)
Definition CustomRand_caller_and_teardown : config :=
  Config opened_once [CustomRand 32 3 1 10] (destructor 2).

(** A caller in [GetRand(1, 10)] racing with the destructor. *)
Definition GetRand_caller_and_teardown : config :=
  Config opened_once [GetRand_range 32 3 1 10] (destructor 2).

(** ** Vocabulary for whole schedules *)

(** Every access [p] can come to make satisfies [P]. *)
Fixpoint only (P : forall X : Type, action X -> Prop) {A : Type} (p : prog A)
  : Prop :=
  match p with
  | Act a k => P _ a /\ forall x, only P (k x)
  | Block k => only P k
  | _ => True
  end.

(** The accesses that leave [dying] alone and hand the provider's close
    nothing but the address of the handle member. *)
Definition generation_access (X : Type) (a : action X) : Prop :=
  match a with
  | WriteDying _ => False
  | BCryptCloseAlgorithmProvider arg => arg = AddrOfHandleField
  | _ => True
  end.

(** The accesses that do not clear [dying]. *)
Definition keeps_dying (X : Type) (a : action X) : Prop :=
  match a with
  | WriteDying b => b = true
  | _ => True
  end.

(** What an access adds to [pending_count]. *)
Definition count_change {X : Type} (a : action X) : Z :=
  match a with
  | LockedIncrement => 1
  | LockedDecrement => -1
  | _ => 0
  end.

(** The accesses that leave [pending_count] alone. *)
Definition leaves_count (X : Type) (a : action X) : Prop :=
  count_change a = 0.

(** On every path to its end, [p] still adds [d] to [pending_count]. *)
Fixpoint net {A : Type} (p : prog A) (d : Z) : Prop :=
  match p with
  | Act a k => forall x, net (k x) (d - count_change a)
  | Block k => net k d
  | _ => d = 0
  end.

(** As long as [dying] reads false, [p] does not throw. *)
Fixpoint no_throw_while_alive (env : provider_env) {A : Type} (p : prog A)
  : Prop :=
  match p with
  | Throw _ => False
  | Act a k =>
      forall s, dying s = false ->
                no_throw_while_alive env (k (fst (perform env a s)))
  | Block k => no_throw_while_alive env k
  | _ => True
  end.

(** The accesses that only look at [pending_count] or set [dying]. *)
Definition looks_on (X : Type) (a : action X) : Prop :=
  match a with
  | ReadPending => True
  | WriteDying b => b = true
  | _ => False
  end.

(** As long as [pending_count] reads non-zero, [p] does not return and
    does nothing but look on. *)
Fixpoint held_back (env : provider_env) {A : Type} (p : prog A) : Prop :=
  match p with
  | Ret _ => False
  | Act a k =>
      looks_on _ a /\
      forall s, pending_count s <> 0 ->
                held_back env (k (fst (perform env a s)))
  | Block k => held_back env k
  | _ => True
  end.

(** The thread has ended. *)
Definition ended {A : Type} (q : position A) : bool :=
  match q with
  | Ended _ => true
  | _ => false
  end.

(** The thread has returned. *)
Definition returned {A : Type} (q : position A) : bool :=
  match q with
  | Ended (Returned _) => true
  | _ => false
  end.

(** The thread has ended by a thrown error. *)
Definition threw {A : Type} (q : position A) : bool :=
  match q with
  | Ended (Threw _) => true
  | _ => false
  end.

(** The step is a caller's. *)
Definition caller_step (l : label) : bool :=
  match l with
  | Caller _ => true
  | _ => false
  end.

(** The entry point is a raw generation. *)
Definition raw_entry (e : entry_point) : bool :=
  match e with
  | EpCall | EpGetRand => true
  | _ => false
  end.

(** The step is caller [i]'s. *)
Definition step_of (i : nat) (l : label) : bool :=
  match l with
  | Caller j => Nat.eqb i j
  | _ => false
  end.

(** The step is another thread's. *)
Definition not_step_of (i : nat) (l : label) : bool := negb (step_of i l).

(** [dying] reads false at every step of the schedule that caller [i]
    takes. *)
Fixpoint alive_at_steps_of (env : provider_env) (i : nat)
    (schedule : list label) (c : config) : bool :=
  match schedule with
  | [] => true
  | l :: rest =>
      (if step_of i l then negb (dying (shared c)) else true) &&
      match step env l c with
      | Some c' => alive_at_steps_of env i rest c'
      | None => true
      end
  end.

(** The entry point an entry point forwards to: the two [GetRand]
    overloads call the two call operators; the others forward to nothing. *)
Definition forwards_to (e : entry_point) : entry_point :=
  match e with
  | EpGetRand => EpCall
  | EpGetRandRange floor roof => EpCallRange floor roof
  | other => other
  end.

(** The sum of a list of numbers. *)
Definition total (ds : list Z) : Z := fold_right Z.add 0 ds.

(** The count and what the callers still owe it add up to [base], and the
    destructor leaves the count alone. *)
Definition in_balance (base : Z) (c : config) : Prop :=
  (exists ds, Forall2 net (callers c) ds /\
              (pending_count (shared c) + total ds) mod 2 ^ 64
              = base mod 2 ^ 64) /\
  only leaves_count (teardown c) /\
  0 <= pending_count (shared c) < 2 ^ 64.

(** The destructor is held back behind a count that reads non-zero, every
    caller has ended, and nothing has been released since [s0]. *)
Definition drained_never (env : provider_env) (s0 : world) (c : config)
  : Prop :=
  held_back env (teardown c) /\
  forallb ended (map position_of (callers c)) = true /\
  pending_count (shared c) <> 0 /\
  pending_count (shared c) = pending_count s0 /\
  calls (shared c) = calls s0 /\
  live (shared c) = live s0.

(** [p] is [q], or [q] inside [try { } catch (...) { throw; }]. *)
Definition forwards (p q : prog Z) : Prop :=
  p = q \/ p = try_catch q rethrow.

(** The generator after a ranged call has left its count behind. *)
Definition count_left_behind : world :=
  World true (ProviderObj 0) false 1 1%nat [0%nat] [Opened 0] 0%nat.

(** [k] calls of [operator()()] in a row, as a loop in a caller makes
    them, with the values they return. *)
Fixpoint generate_n (Tbits : Z) (k : nat) : prog (list Z) :=
  match k with
  | O => Ret []
  | S k' =>
      x <- operator_call Tbits ;;
      rest <- generate_n Tbits k' ;;
      Ret (x :: rest)
  end.

(** The values the provider's fills [start], [start + 1], ... leave in the
    buffer. *)
Fixpoint buffers (env : provider_env) (Tbits : Z) (start k : nat) : list Z :=
  match k with
  | O => []
  | S k' => number_after Tbits (env start) :: buffers env Tbits (S start) k'
  end.

(** The pointer is one of the handles [l]. *)
Definition open_in (arg : pvoid) (l : list nat) : bool :=
  match arg with
  | ProviderObj id => existsb (Nat.eqb id) l
  | _ => false
  end.

(** The handle member holds an open handle. *)
Definition handle_open (s : world) : Prop :=
  open_in (algorithm_handle s) (live s) = true.

(** An initialised generator holds an open handle, and every fill the
    provider has received went to a handle that is open. *)
Definition well_formed (s : world) : Prop :=
  (initialized s = true -> handle_open s) /\
  (forall arg, In (Filled arg) (calls s) -> open_in arg (live s) = true).

(** Whether the thread knows the handle member to hold an open handle
    after an access: it has seen [initialized] true, or has opened the
    provider itself. *)
Definition sure_after {X : Type} (a : action X) (s : world) (sure : bool)
  : bool :=
  match a with
  | ReadInitialized => sure || initialized s
  | BCryptOpenAlgorithmProvider => true
  | _ => sure
  end.

(** What an access needs: the handle member is read, and [initialized]
    set, by a thread that knows the member to hold an open handle; a fill
    goes to one of the handles known to be open. *)
Definition fill_ok {X : Type} (a : action X) (known : list nat) (sure : bool)
  : Prop :=
  match a with
  | BCryptGenRandom arg _ => open_in arg known = true
  | ReadHandle => sure = true
  | WriteInitialized b => b = true -> sure = true
  | _ => True
  end.

(** Every access [p] comes to make is a generation access that has what
    it needs, [known] being handles open when the thread last looked. *)
Fixpoint fills_open_handles (env : provider_env) (sure : bool)
    (known : list nat) {A : Type} (p : prog A) : Prop :=
  match p with
  | Act a k =>
      generation_access _ a /\
      fill_ok a known sure /\
      forall s,
        (sure = true -> handle_open s) ->
        incl known (live s) ->
        fills_open_handles env (sure_after a s sure)
                           (live (snd (perform env a s)))
                           (k (fst (perform env a s)))
  | Block k => fills_open_handles env sure known k
  | _ => True
  end.

(** The thread is right in what it takes for granted. *)
Definition thread_sound (env : provider_env) (s : world) (p : prog Z) : Prop :=
  exists sure known,
    (sure = true -> handle_open s) /\
    incl known (live s) /\
    fills_open_handles env sure known p.

(** As long as [dying] reads false, [p] still adds [d] to [pending_count]
    on every path to a return; when [strict], it has no other end than a
    return. The paths that the model cuts short add what they add. *)
Fixpoint net_alive (env : provider_env) (strict : bool) {A : Type}
    (p : prog A) (d : Z) : Prop :=
  match p with
  | Act a k =>
      forall s, dying s = false ->
                net_alive env strict (k (fst (perform env a s)))
                          (d - count_change a)
  | Block k => net_alive env strict k d
  | Ret _ => d = 0
  | Throw _ | AssertFail => if strict then False else d = 0
  | Spin | Undefined => True
  end.

(** The thread has ended by a value, an error or a failed assertion. *)
Definition finished {A : Type} (q : position A) : bool :=
  match q with
  | Ended (Returned _) | Ended (Threw _) | Ended Aborted => true
  | _ => false
  end.

(** The count and what the callers still owe it add up to [base], [dying]
    is false, and the callers make generation accesses only. *)
Definition in_balance_alive (env : provider_env) (base : Z) (c : config)
  : Prop :=
  dying (shared c) = false /\
  Forall (only generation_access) (callers c) /\
  (exists ds, Forall2 (net_alive env false) (callers c) ds /\
              (pending_count (shared c) + total ds) mod 2 ^ 64
              = base mod 2 ^ 64) /\
  0 <= pending_count (shared c) < 2 ^ 64.

(** * Properties *)

(** ** Running programs alone *)

Lemma run_bind {A B : Type} (env : provider_env) (p : prog A) (f : A -> prog B) :
  forall s, run env (bind p f) s = and_then env (run env p s) f.
Proof.
  induction p as [a | e | | | | X a k IH | k IH]; intros s; simpl; try reflexivity.
  destruct (perform env a s) as [x s']. apply IH.
Qed.

Lemma run_try_rethrow {A : Type} (env : provider_env) (p : prog A) :
  forall s, run env (try_catch p rethrow) s = run env p s.
Proof.
  induction p as [a | e | | | | X a k IH | k IH]; intros s; simpl; try reflexivity.
  destruct (perform env a s) as [x s']. apply IH.
Qed.

Lemma run_IncrementCount (env : provider_env) (s : world) :
  run env IncrementCount s =
  if dying s then (Threw ShutdownError, s)
  else (Returned tt, set_pending (wrap64 (pending_count s + 1)) s).
Proof. unfold IncrementCount. simpl. destruct (dying s); reflexivity. Qed.

Lemma run_DecrementCount (env : provider_env) (s : world) :
  run env DecrementCount s =
  (Returned tt, set_pending (wrap64 (pending_count s - 1)) s).
Proof. reflexivity. Qed.

Lemma run_operator_call (Tbits : Z) (env : provider_env) (s : world) :
  run env (operator_call Tbits) s =
  if dying s then (Threw ShutdownError, s)
  else (Returned (number_after Tbits (env (draws s))), after_generation env s).
Proof.
  destruct s as [i h d p n l c k]. unfold operator_call, after_generation.
  simpl. destruct d; [reflexivity|]. simpl. destruct i; [reflexivity|].
  simpl. destruct (open_succeeds env (length c)); reflexivity.
Qed.

Lemma after_generation_dying (env : provider_env) (s : world) :
  dying (after_generation env s) = dying s.
Proof.
  destruct s as [[] h d p n l c k]; unfold after_generation; cbn;
    [reflexivity|]. destruct (open_succeeds env (length c)); reflexivity.
Qed.

Lemma after_generation_draws (env : provider_env) (s : world) :
  draws (after_generation env s) = S (draws s).
Proof.
  destruct s as [[] h d p n l c k]; unfold after_generation; cbn;
    [reflexivity|]. destruct (open_succeeds env (length c)); reflexivity.
Qed.

Lemma wrap64_round_trip (p : Z) :
  0 <= p < 2 ^ 64 -> wrap64 (wrap64 (p + 1) - 1) = p.
Proof.
  intros Hp. unfold wrap64, wrap.
  rewrite Zminus_mod_idemp_l.
  replace (p + 1 - 1) with p by lia.
  apply Z.mod_small. exact Hp.
Qed.

Lemma after_generation_pending (env : provider_env) (s : world) :
  0 <= pending_count s < 2 ^ 64 ->
  pending_count (after_generation env s) = pending_count s.
Proof.
  intros Hp. destruct s as [[] h d p n l c k]; unfold after_generation;
    cbn in *; [|destruct (open_succeeds env (length c)); cbn];
    apply wrap64_round_trip; exact Hp.
Qed.

Lemma generations_dying (env : provider_env) (k : nat) :
  forall s, dying (generations env k s) = dying s.
Proof.
  induction k as [|k IH]; intros s; simpl; [reflexivity|].
  rewrite IH. apply after_generation_dying.
Qed.

Lemma generations_draws (env : provider_env) (k : nat) :
  forall s, draws (generations env k s) = (draws s + k)%nat.
Proof.
  induction k as [|k IH]; intros s; simpl; [lia|].
  rewrite IH, after_generation_draws. lia.
Qed.

Lemma generations_add (env : provider_env) (k m : nat) :
  forall s, generations env (k + m) s = generations env m (generations env k s).
Proof.
  induction k as [|k IH]; intros s; simpl; [reflexivity | apply IH].
Qed.

Lemma generations_pending (env : provider_env) (k : nat) :
  forall s,
    0 <= pending_count s < 2 ^ 64 ->
    pending_count (generations env k s) = pending_count s.
Proof.
  induction k as [|k IH]; intros s Hp; simpl; [reflexivity|].
  rewrite IH; rewrite after_generation_pending; auto.
Qed.

Section Sampling.

Variable Tbits : Z.
Variable env : provider_env.

Lemma run_gather (k : nat) :
  forall acc s,
    dying s = false ->
    run env (gather Tbits (operator_call Tbits) k acc) s =
    (Returned (gathered env Tbits (draws s) k acc), generations env k s).
Proof.
  induction k as [|k IH]; intros acc s Hd; cbn [gather generations gathered];
    [reflexivity|].
  rewrite run_bind, run_operator_call, Hd. cbn [and_then].
  rewrite IH by (rewrite after_generation_dying; exact Hd).
  rewrite after_generation_draws. reflexivity.
Qed.

(** Whatever the raw source does, an accepted sample is a residue. *)
Lemma rejection_residue (g : prog Z) (n : Z) (k fuel : nat) :
  0 < n ->
  forall s v s',
    run env (rejection Tbits fuel g n k) s = (Returned v, s') ->
    0 <= v < n.
Proof.
  intros Hn. induction fuel as [|fuel IH]; intros s v s' Hrun;
    cbn [rejection] in Hrun.
  - discriminate.
  - rewrite run_bind in Hrun.
    destruct (run env (gather Tbits g k 0) s) as [[r| | | | |] s1];
      cbn [and_then] in Hrun; try discriminate.
    destruct (r <? unbiased_limit Tbits n k).
    + cbn [run] in Hrun. injection Hrun as <- _. apply Z.mod_pos_bound. exact Hn.
    + eapply IH. exact Hrun.
Qed.

(** Past the gate, the sampling loop itself never throws: it ends with a
    sample or runs out of attempts, after some number of generations. *)
Lemma rejection_no_throw (n : Z) (k fuel : nat) :
  forall s, dying s = false ->
    exists m,
      (exists v, run env (rejection Tbits fuel (operator_call Tbits) n k) s
                 = (Returned v, generations env m s))
      \/ run env (rejection Tbits fuel (operator_call Tbits) n k) s
         = (OutOfFuel, generations env m s).
Proof.
  induction fuel as [|fuel IH]; intros s Hd; cbn [rejection].
  - exists 0%nat. right. reflexivity.
  - rewrite run_bind, run_gather by exact Hd. cbn [and_then].
    destruct (gathered env Tbits (draws s) k 0 <? unbiased_limit Tbits n k).
    + exists k. left. eexists. reflexivity.
    + destruct (IH (generations env k s)) as (m & Hm);
        [rewrite generations_dying; exact Hd|].
      exists (k + m)%nat. rewrite generations_add. exact Hm.
Qed.

(** The loop returns at the latest with the first unbiased attempt. *)
Lemma rejection_returns (n : Z) (k : nat) :
  forall j fuel s,
    dying s = false ->
    (j < fuel)%nat ->
    (gathered env Tbits (draws s + j * k) k 0 <? unbiased_limit Tbits n k) = true ->
    exists v s',
      run env (rejection Tbits fuel (operator_call Tbits) n k) s = (Returned v, s').
Proof.
  induction j as [|j IH]; intros fuel s Hd Hlt Hacc;
    (destruct fuel as [|fuel]; [lia|]); cbn [rejection];
    rewrite run_bind, run_gather by exact Hd; cbn [and_then].
  - replace (draws s + 0 * k)%nat with (draws s) in Hacc by lia.
    rewrite Hacc. cbn [run]. eauto.
  - destruct (gathered env Tbits (draws s) k 0 <? unbiased_limit Tbits n k);
      cbn [run]; [eauto|].
    apply IH.
    + rewrite generations_dying. exact Hd.
    + lia.
    + rewrite generations_draws.
      replace (draws s + k + j * k)%nat with (draws s + S j * k)%nat by lia.
      exact Hacc.
Qed.

End Sampling.

Section Ranged.

Variable Tbits : Z.
Variable env : provider_env.

Lemma uniform_int_within (g : prog Z) (fuel : nat) (a b : Z) :
  forall s v s',
    run env (uniform_int_distribution Tbits fuel a b g) s = (Returned v, s') ->
    a <= v <= b.
Proof.
  intros s v s' Hrun. unfold uniform_int_distribution in Hrun.
  destruct (b <? a) eqn:Hab; [discriminate|].
  apply Z.ltb_ge in Hab.
  rewrite run_bind in Hrun.
  destruct (run env (rejection Tbits fuel g (b - a + 1)
                               (words_needed Tbits (b - a + 1))) s)
    as [[r| | | | |] s1] eqn:Hrej; cbn [and_then run] in Hrun;
    try discriminate.
  injection Hrun as <- _.
  apply rejection_residue in Hrej; lia.
Qed.

Lemma run_operator_call_range (fuel : nat) (floor roof : Z) (s : world) :
  run env (operator_call_range Tbits fuel floor roof) s =
  if floor <? roof then
    if dying s then (Threw ShutdownError, s)
    else and_then env
           (run env (uniform_int_distribution Tbits fuel floor roof
                                              (operator_call Tbits))
                (set_pending (wrap64 (pending_count s + 1)) s))
           (fun number => DecrementCount ;; Ret number)
  else (Aborted, s).
Proof.
  unfold operator_call_range, assert_.
  destruct (floor <? roof); [|reflexivity].
  cbn [bind]. rewrite run_bind, run_try_rethrow, run_IncrementCount.
  destruct (dying s); [reflexivity|]. cbn [and_then].
  rewrite run_bind. reflexivity.
Qed.

Lemma operator_call_range_within (fuel : nat) (floor roof : Z) :
  forall s v s',
    run env (operator_call_range Tbits fuel floor roof) s = (Returned v, s') ->
    floor <= v <= roof.
Proof.
  intros s v s' Hrun. rewrite run_operator_call_range in Hrun.
  destruct (floor <? roof); [|discriminate].
  destruct (dying s); [discriminate|].
  destruct (run env (uniform_int_distribution Tbits fuel floor roof
                       (operator_call Tbits))
                (set_pending (wrap64 (pending_count s + 1)) s))
    as [[r| | | | |] s1] eqn:Hdist; cbn [and_then] in Hrun; try discriminate.
  apply uniform_int_within in Hdist.
  cbn in Hrun. injection Hrun as <- _. exact Hdist.
Qed.

Lemma operator_call_range_returns (floor roof : Z) (j fuel : nat) (s : world) :
  floor < roof ->
  dying s = false ->
  (j < fuel)%nat ->
  accepted env Tbits (roof - floor + 1)
           (draws s + j * words_needed Tbits (roof - floor + 1)) = true ->
  exists v s',
    run env (operator_call_range Tbits fuel floor roof) s = (Returned v, s').
Proof.
  intros Hlt Hd Hfuel Hacc. rewrite run_operator_call_range, Hd.
  apply Z.ltb_lt in Hlt as Hlt'. rewrite Hlt'.
  unfold uniform_int_distribution.
  replace (roof <? floor) with false by (symmetry; apply Z.ltb_ge; lia).
  rewrite run_bind.
  destruct (rejection_returns Tbits env (roof - floor + 1)
              (words_needed Tbits (roof - floor + 1)) j fuel
              (set_pending (wrap64 (pending_count s + 1)) s) Hd Hfuel Hacc)
    as (r & s1 & Hrej).
  rewrite Hrej. cbn. eauto.
Qed.

Lemma operator_call_range_no_throw (fuel : nat) (floor roof : Z) (s : world) :
  dying s = false ->
  forall x, fst (run env (operator_call_range Tbits fuel floor roof) s) <> Threw x.
Proof.
  intros Hd x. rewrite run_operator_call_range, Hd.
  destruct (floor <? roof); [|discriminate].
  unfold uniform_int_distribution.
  destruct (roof <? floor); [discriminate|].
  rewrite run_bind.
  destruct (rejection_no_throw Tbits env (roof - floor + 1)
              (words_needed Tbits (roof - floor + 1)) fuel
              (set_pending (wrap64 (pending_count s + 1)) s) Hd)
    as (m & [[v Hrej] | Hrej]); rewrite Hrej; cbn; discriminate.
Qed.

(** With no teardown beside it, a ranged call that ends leaves
    [pending_count] as it found it. *)
Lemma operator_call_range_balanced
    (fuel : nat) (floor roof : Z) (s s' : world) (o : outcome Z) :
  0 <= pending_count s < 2 ^ 64 ->
  run env (operator_call_range Tbits fuel floor roof) s = (o, s') ->
  o <> OutOfFuel ->
  pending_count s' = pending_count s.
Proof.
  intros Hp Hrun Hend. rewrite run_operator_call_range in Hrun.
  destruct (floor <? roof) eqn:Hlt; [|injection Hrun as _ <-; reflexivity].
  destruct (dying s) eqn:Hd; [injection Hrun as _ <-; reflexivity|].
  apply Z.ltb_lt in Hlt. unfold uniform_int_distribution in Hrun.
  replace (roof <? floor) with false in Hrun by (symmetry; apply Z.ltb_ge; lia).
  rewrite run_bind in Hrun.
  destruct (rejection_no_throw Tbits env (roof - floor + 1)
              (words_needed Tbits (roof - floor + 1)) fuel
              (set_pending (wrap64 (pending_count s + 1)) s) Hd)
    as (m & [[v Hrej] | Hrej]); rewrite Hrej in Hrun; cbn in Hrun.
  - injection Hrun as _ <-. cbn.
    rewrite generations_pending.
    + cbn. apply wrap64_round_trip. exact Hp.
    + cbn. apply Z.mod_pos_bound. reflexivity.
  - injection Hrun as <- _. congruence.
Qed.

End Ranged.

(** With no teardown beside it, every entry point that ends, by a value,
    by the shutdown error or by a failed assertion, leaves [pending_count]
    as it found it. *)
Lemma bracket_balanced_alone
    (Tbits : Z) (env : provider_env) (fuel : nat) (e : entry_point)
    (s s' : world) (o : outcome Z) :
  0 <= pending_count s < 2 ^ 64 ->
  run env (invoke Tbits fuel e) s = (o, s') ->
  o <> OutOfFuel ->
  pending_count s' = pending_count s.
Proof.
  intros Hp Hrun Hend.
  destruct e as [|floor roof| |floor roof|floor roof];
    cbn [invoke] in Hrun; unfold GetRand, GetRand_range in Hrun;
    rewrite ?run_try_rethrow in Hrun;
    try (eapply operator_call_range_balanced; eassumption);
    rewrite run_operator_call in Hrun;
    (destruct (dying s); injection Hrun as _ <-;
     [reflexivity | apply after_generation_pending; exact Hp]).
Qed.

(** X12. Every value [operator()()] returns lies between [min()] and
    [max()], whatever the provider leaves in the buffer. *)
Lemma operator_call_between_min_and_max
    (Tbits : Z) (env : provider_env) (s s' : world) (v : Z) :
  0 <= Tbits ->
  run env (operator_call Tbits) s = (Returned v, s') ->
  min_ <= v <= max_ Tbits.
Proof.
  intros Hw Hrun. rewrite run_operator_call in Hrun.
  destruct (dying s); [discriminate|]. injection Hrun as <- _.
  assert (0 < 2 ^ Tbits) by (apply Z.pow_pos_nonneg; lia).
  unfold min_, max_, number_after, wrap.
  destruct (env (draws s)) as [b | st l];
    [pose proof (Z.mod_pos_bound b (2 ^ Tbits))
    | pose proof (Z.mod_pos_bound l (2 ^ Tbits))]; lia.
Qed.

Lemma type_bounds_ordered (U : int_type) :
  0 < bits U -> type_min U < type_max U.
Proof.
  intros Hb. unfold type_min, type_max. destruct (is_signed U).
  - assert (0 < 2 ^ (bits U - 1)) by (apply Z.pow_pos_nonneg; lia). lia.
  - assert (2 ^ 1 <= 2 ^ bits U) by (apply Z.pow_le_mono_r; lia).
    change (2 ^ 1) with 2 in *. lia.
Qed.

Lemma gather_never_aborts (Tbits : Z) (env : provider_env) (k : nat) :
  forall acc s,
    fst (run env (gather Tbits (operator_call Tbits) k acc) s) <> Aborted.
Proof.
  induction k as [|k IH]; intros acc s; cbn [gather]; [discriminate|].
  rewrite run_bind, run_operator_call.
  destruct (dying s); cbn [and_then]; [discriminate | apply IH].
Qed.

Lemma rejection_never_aborts (Tbits : Z) (env : provider_env) (n : Z) (k fuel : nat) :
  forall s,
    fst (run env (rejection Tbits fuel (operator_call Tbits) n k) s) <> Aborted.
Proof.
  induction fuel as [|fuel IH]; intros s; cbn [rejection]; [discriminate|].
  rewrite run_bind.
  pose proof (gather_never_aborts Tbits env k 0 s) as Hg.
  destruct (run env (gather Tbits (operator_call Tbits) k 0) s)
    as [[r| | | | |] s1]; cbn [and_then fst] in *; try discriminate.
  - destruct (r <? unbiased_limit Tbits n k); [discriminate | apply IH].
  - congruence.
Qed.

(** ** The shutdown gate *)

(** The first access of [operator()()] is its test of [dying]. If the test
    reads true the call throws; if it reads false, nothing that happens
    later, in this thread or in another, makes the call throw. *)
Lemma operator_call_throws_at_the_gate_only (Tbits : Z) :
  exists k,
    operator_call Tbits = Act ReadDying k /\
    k true = Throw ShutdownError /\
    ~ can_throw (k false).
Proof.
  eexists. split; [reflexivity|]. split; [reflexivity|].
  cbn. intros (_ & [] & H); cbn in H.
  - destruct H as (h & n & _ & []).
  - destruct H as ([] & H); cbn in H.
    + destruct H as (h & n & _ & []).
    + destruct H as (_ & _ & h & n & _ & []).
Qed.

(** Run with no other thread beside it from a state where [dying] is
    false, no generation entry point raises the shutdown error; run from a
    state where [dying] is true, each of them raises it and leaves the
    generator and the provider untouched. The ranged entry points are taken
    with the range their assertion demands. *)
Lemma shutdown_error_iff_dying
    (Tbits : Z) (env : provider_env) (fuel : nat) (e : entry_point) (s : world) :
  range_precondition e = true ->
  (dying s = false ->
   forall x, fst (run env (invoke Tbits fuel e) s) <> Threw x) /\
  (dying s = true ->
   run env (invoke Tbits fuel e) s = (Threw ShutdownError, s)).
Proof.
  intros Hpre. split.
  - intros Hd x. destruct e as [|floor roof| |floor roof|floor roof];
      cbn [invoke]; unfold GetRand, GetRand_range;
      rewrite ?run_try_rethrow.
    + rewrite run_operator_call, Hd. discriminate.
    + apply operator_call_range_no_throw. exact Hd.
    + rewrite run_operator_call, Hd. discriminate.
    + apply operator_call_range_no_throw. exact Hd.
    + apply operator_call_range_no_throw. exact Hd.
  - intros Hd. destruct e as [|floor roof| |floor roof|floor roof];
      cbn [invoke range_precondition] in *; unfold GetRand, GetRand_range;
      try change (CustomRand Tbits fuel floor roof)
        with (operator_call_range Tbits fuel floor roof);
      rewrite ?run_try_rethrow, ?run_operator_call, ?run_operator_call_range,
        ?Hpre, Hd; reflexivity.
Qed.

(** C3, as stated, fails for the ranged entry points: [GetRand(1, 10)]
    enters and is counted while [dying] is false; the destructor then sets
    [dying], and the [operator()()] that the distribution calls next raises
    the shutdown error. *)
Lemma entered_range_call_raises_shutdown_error :
  after steady_env [Caller 0; Caller 0]%nat GetRand_caller_and_teardown
  = Some (Snapshot
            (World true (ProviderObj 0) false 1 1%nat [0%nat] [Opened 0] 0%nat)
            [Before ReadDying]
            (Before (WriteDying true))) /\
  after steady_env [Caller 0; Caller 0; Teardown; Caller 0]%nat
        GetRand_caller_and_teardown
  = Some (Snapshot
            (World true (ProviderObj 0) true 1 1%nat [0%nat] [Opened 0] 0%nat)
            [Ended (Threw ShutdownError)]
            (Before ReadPending)).
Proof. split; vm_compute; reflexivity. Qed.

(** ** Provider failures *)

(** C5, as stated, fails: when the provider's fill fails, the raw
    generation neither returns the provider's bytes nor raises an error. *)
Lemma provider_failure_not_surfaced :
  ~ fill_or_error failing_env 32 constructed.
Proof.
  intros [(bytes & Hfill & _) | (e & Hrun)].
  - discriminate Hfill.
  - vm_compute in Hrun. discriminate Hrun.
Qed.

(** C5, amended. A raw generation let in by the gate always returns the
    contents of its buffer: the provider's bytes, reduced to the width of
    [T], when the fill succeeds, and what the buffer held when the fill
    fails; the provider's status is never turned into an error. *)
Theorem generation_returns_buffer_whatever_the_status
    (Tbits : Z) (env : provider_env) (s : world) :
  dying s = false ->
  match env (draws s) with
  | FillOk bytes =>
      fst (run env (operator_call Tbits) s) = Returned (wrap Tbits bytes)
  | FillFail _ leftover =>
      fst (run env (operator_call Tbits) s) = Returned (wrap Tbits leftover)
  end.
Proof.
  intros Hd. rewrite run_operator_call, Hd. cbn [fst].
  destruct (env (draws s)); reflexivity.
Qed.

(** A failed fill on a fresh generator: the stale buffer is returned. *)
Lemma generation_returns_buffer_whatever_the_status_witness :
  fst (run failing_env (operator_call 32) constructed) = Returned 48879.
Proof.
  exact (generation_returns_buffer_whatever_the_status
           32 failing_env constructed eq_refl).
Defined.

(** ** Ranged generation *)

(** C6. With [floor < roof], every value returned by the ranged call
    operator and by [CustomRand] lies in the inclusive range; the call does
    return once the sampling loop meets an attempt it accepts; and
    [CustomRand] with its bounds omitted ranges over the whole domain of
    the requested type. *)
Theorem ranged_generation_within_bounds
    (Tbits : Z) (env : provider_env) (s : world) :
  (forall floor roof fuel v s',
     floor < roof ->
     run env (operator_call_range Tbits fuel floor roof) s = (Returned v, s') \/
     run env (CustomRand Tbits fuel floor roof) s = (Returned v, s') ->
     floor <= v <= roof) /\
  (forall floor roof j fuel,
     floor < roof ->
     dying s = false ->
     (j < fuel)%nat ->
     accepted env Tbits (roof - floor + 1)
              (draws s + j * words_needed Tbits (roof - floor + 1)) = true ->
     yields_within env (operator_call_range Tbits fuel floor roof) s floor roof /\
     yields_within env (CustomRand Tbits fuel floor roof) s floor roof) /\
  (forall U j fuel,
     0 < bits U ->
     dying s = false ->
     (j < fuel)%nat ->
     accepted env Tbits (type_max U - type_min U + 1)
              (draws s + j * words_needed Tbits (type_max U - type_min U + 1))
     = true ->
     yields_within env (CustomRand_default Tbits fuel U) s
                   (type_min U) (type_max U)).
Proof.
  assert (Hyield : forall floor roof j fuel,
     floor < roof ->
     dying s = false ->
     (j < fuel)%nat ->
     accepted env Tbits (roof - floor + 1)
              (draws s + j * words_needed Tbits (roof - floor + 1)) = true ->
     yields_within env (operator_call_range Tbits fuel floor roof) s floor roof).
  { intros floor roof j fuel Hlt Hd Hfuel Hacc.
    destruct (operator_call_range_returns Tbits env floor roof j fuel s
                Hlt Hd Hfuel Hacc) as (v & s' & Hrun).
    exists v, s'. split; [exact Hrun|].
    eapply operator_call_range_within. exact Hrun. }
  split; [|split].
  - intros floor roof fuel v s' _ [Hrun | Hrun];
      eapply operator_call_range_within; exact Hrun.
  - intros floor roof j fuel Hlt Hd Hfuel Hacc.
    split; [|change (CustomRand Tbits fuel floor roof)
               with (operator_call_range Tbits fuel floor roof)];
      eapply Hyield; eassumption.
  - intros U j fuel Hb Hd Hfuel Hacc. unfold CustomRand_default.
    change (CustomRand Tbits fuel (type_min U) (type_max U))
      with (operator_call_range Tbits fuel (type_min U) (type_max U)).
    eapply Hyield; try eassumption. apply type_bounds_ordered. exact Hb.
Qed.

(** The range (1, 10) with a provider whose first draw is kept. *)
Lemma ranged_generation_within_bounds_witness :
  yields_within steady_env (operator_call_range 32 1 1 10) constructed 1 10 /\
  yields_within steady_env (CustomRand 32 1 1 10) constructed 1 10.
Proof.
  apply (proj1 (proj2 (ranged_generation_within_bounds 32 steady_env constructed))
           1 10 0%nat 1%nat).
  - lia.
  - reflexivity.
  - lia.
  - vm_compute. reflexivity.
Defined.

(** C7. When [floor < roof] does not hold, in particular for the range
    (5, 5), the ranged entry points fail their assertion: the call aborts
    before anything is touched, and no value is returned. *)
Theorem invalid_range_fails_assertion
    (Tbits : Z) (env : provider_env) (fuel : nat) (s : world) (floor roof : Z) :
  roof <= floor ->
  run env (operator_call_range Tbits fuel floor roof) s = (Aborted, s) /\
  run env (GetRand_range Tbits fuel floor roof) s = (Aborted, s) /\
  run env (CustomRand Tbits fuel floor roof) s = (Aborted, s).
Proof.
  intros Hge. unfold GetRand_range. rewrite run_try_rethrow.
  change (CustomRand Tbits fuel floor roof)
    with (operator_call_range Tbits fuel floor roof).
  rewrite run_operator_call_range.
  replace (floor <? roof) with false by (symmetry; apply Z.ltb_ge; exact Hge).
  auto.
Qed.

(** The range (5, 5). *)
Lemma invalid_range_fails_assertion_witness :
  run steady_env (operator_call_range 32 3 5 5) opened_once
  = (Aborted, opened_once) /\
  run steady_env (GetRand_range 32 3 5 5) opened_once = (Aborted, opened_once) /\
  run steady_env (CustomRand 32 3 5 5) opened_once = (Aborted, opened_once).
Proof.
  apply (invalid_range_fails_assertion 32 steady_env 3 opened_once 5 5). lia.
Defined.

(** ** Initialisation *)

Lemma Initialize_constructed (env : provider_env) :
  open_succeeds env 0 = true ->
  run env (Initialize false) constructed = (Returned tt, opened_once).
Proof. intros Hok. cbn. rewrite Hok. reflexivity. Qed.

(** Without the flag, initialising an initialised generator does nothing. *)
Lemma Initialize_again_is_noop (env : provider_env) (s : world) :
  initialized s = true ->
  run env (Initialize false) s = (Returned tt, s).
Proof. intros Hi. unfold Initialize. simpl. rewrite Hi. reflexivity. Qed.

Lemma Initialize_twice_opens_once (env : provider_env) :
  open_succeeds env 0 = true ->
  calls (snd (run env (Initialize false ;; Initialize false) constructed))
  = [Opened 0].
Proof. intros Hok. cbn. rewrite Hok. reflexivity. Qed.

(** What a forced reinitialisation does to an initialised generator. *)
Lemma Initialize_forced (env : provider_env) (s : world) :
  initialized s = true ->
  run env (Initialize true) s =
  (Returned tt,
   set_initialized true
     (provider_open (open_succeeds env (S (length (calls s))))
                    (provider_close AddrOfHandleField
                                    (set_initialized false s)))).
Proof.
  intros Hi. unfold Initialize. simpl. rewrite Hi. simpl.
  rewrite length_app, Nat.add_1_r. reflexivity.
Qed.

(** C8. [Initialize(true)] on an initialised generator issues one close and
    one open, but the close is handed the address of the handle member and
    not the handle: the handle that was open stays open next to the fresh
    one. *)
Theorem reinitialize_leaves_old_handle_open :
  run steady_env (Initialize true) opened_once =
  (Returned tt,
   World true (ProviderObj 1) false 0 2%nat [0%nat; 1%nat]
         [Opened 0; Closed AddrOfHandleField; Opened 1] 0%nat) /\
  is_live (ProviderObj 0)
          (snd (run steady_env (Initialize true) opened_once)) = true.
Proof. split; reflexivity. Qed.

(** ** The convenience functions *)

Lemma to_int_range (u : Z) : INT_MIN <= to_int u <= INT_MAX.
Proof.
  unfold to_int, wrap.
  pose proof (Z.mod_pos_bound u (2 ^ 32) eq_refl) as Hm.
  change INT_MIN with (- 2 ^ 31). change INT_MAX with (2 ^ 31 - 1).
  destruct (u mod 2 ^ 32 <? 2 ^ 31) eqn:E;
    [apply Z.ltb_lt in E | apply Z.ltb_ge in E]; lia.
Qed.

(** Every raw value but one is mapped into [0, INT_MAX]. *)
Lemma std_abs_nonnegative (u : Z) :
  to_int u <> INT_MIN -> 0 <= std_abs (to_int u) <= INT_MAX.
Proof.
  intros Hne. pose proof (to_int_range u) as Hr.
  change INT_MIN with (- 2 ^ 31) in *. change INT_MAX with (2 ^ 31 - 1) in *.
  unfold std_abs. destruct (to_int u <? 0) eqn:E;
    [apply Z.ltb_lt in E | apply Z.ltb_ge in E; lia].
  set (x := to_int u) in *.
  unfold to_int, wrap. rewrite Z.mod_small by lia.
  replace (- x <? 2 ^ 31) with true by (symmetry; apply Z.ltb_lt; lia). lia.
Qed.

(** C9. The raw value [2^31] reads as [INT_MIN] once cast to [int], and
    [SimpleRandom()] then returns [INT_MIN], a negative number. *)
Theorem SimpleRandom_negative_for_most_negative_int :
  to_int (2 ^ 31) = INT_MIN /\
  fst (run most_negative_env SimpleRandom constructed) = Returned INT_MIN /\
  INT_MIN < 0.
Proof. repeat split. Qed.

(** C10. [SimpleRandom(floor, roof)] asserts nothing. With [floor <= roof]
    every value it returns lies in the inclusive range, it returns once the
    sampling loop meets an attempt it accepts, and with [floor = roof] it
    returns [floor]. *)
Theorem SimpleRandom_range_inclusive
    (env : provider_env) (s : world) (floor roof : Z) :
  floor <= roof ->
  (forall fuel, fst (run env (SimpleRandom_range fuel floor roof) s) <> Aborted) /\
  (forall fuel v s',
     run env (SimpleRandom_range fuel floor roof) s = (Returned v, s') ->
     floor <= v <= roof) /\
  (dying s = false ->
   forall j fuel,
     (j < fuel)%nat ->
     accepted env 32 (roof - floor + 1)
              (draws s + j * words_needed 32 (roof - floor + 1)) = true ->
     yields_within env (SimpleRandom_range fuel floor roof) s floor roof) /\
  (floor = roof ->
   dying s = false ->
   forall fuel, (0 < fuel)%nat ->
     fst (run env (SimpleRandom_range fuel floor roof) s) = Returned floor).
Proof.
  intros Hle.
  assert (Hlt : (roof <? floor) = false) by (apply Z.ltb_ge; exact Hle).
  split; [|split; [|split]].
  - intros fuel.
    unfold SimpleRandom_range, uniform_int_distribution. rewrite Hlt.
    cbv beta iota zeta. rewrite run_bind.
    pose proof (rejection_never_aborts 32 env (roof - floor + 1)
                  (words_needed 32 (roof - floor + 1)) fuel s) as Hr.
    destruct (run env (rejection 32 fuel (operator_call 32) (roof - floor + 1)
                         (words_needed 32 (roof - floor + 1))) s)
      as [[r| | | | |] s1]; cbn in *; congruence.
  - intros fuel v s' Hrun. eapply uniform_int_within. exact Hrun.
  - intros Hd j fuel Hfuel Hacc.
    unfold yields_within, SimpleRandom_range.
    destruct (rejection_returns 32 env (roof - floor + 1)
                (words_needed 32 (roof - floor + 1)) j fuel s Hd Hfuel Hacc)
      as (r & s1 & Hrej).
    assert (Hrun : run env (uniform_int_distribution 32 fuel floor roof
                              (operator_call 32)) s
                   = (Returned (floor + r), s1)).
    { unfold uniform_int_distribution. rewrite Hlt. cbv beta iota zeta.
      rewrite run_bind, Hrej. reflexivity. }
    exists (floor + r), s1. split; [exact Hrun|].
    eapply uniform_int_within. exact Hrun.
  - intros -> _ fuel Hfuel. destruct fuel as [|fuel]; [lia|].
    unfold SimpleRandom_range, uniform_int_distribution. rewrite Hlt.
    replace (roof - roof + 1) with 1 by lia.
    cbn. f_equal. lia.
Qed.

(** [SimpleRandom(5, 5)] returns 5. *)
Lemma SimpleRandom_range_inclusive_witness :
  fst (run steady_env (SimpleRandom_range 1 5 5) opened_once) = Returned 5.
Proof.
  apply (proj2 (proj2 (proj2
           (SimpleRandom_range_inclusive steady_env opened_once 5 5
                                         ltac:(lia))))).
  - reflexivity.
  - reflexivity.
  - lia.
Defined.

(** ** Generation against teardown *)

(** Alone, on a drained generator, the destructor sets [dying], clears
    [initialized] and releases the handle, in this order. *)
Lemma destructor_alone (env : provider_env) (fuel : nat) (s : world) :
  pending_count s = 0 ->
  run env (destructor (S fuel)) s =
  (Returned tt,
   provider_close (algorithm_handle s)
                  (set_initialized false (set_dying true s))).
Proof. intros Hp. unfold destructor. simpl. rewrite Hp. reflexivity. Qed.

(** C1. A schedule on which the destructor releases the handle while a
    generation is under way: the caller passed the [dying] test before the
    destructor set [dying], and incremented [pending_count] after the
    destructor had found it zero. At the release [pending_count] is 1, and
    the caller then hands the released handle to the provider. *)
Theorem handle_released_during_generation :
  after steady_env release_race caller_and_teardown
  = Some (Snapshot
            (World false (ProviderObj 0) true 1 1%nat [0%nat] [Opened 0] 0%nat)
            [Before (BCryptGenRandom (ProviderObj 0) 32)]
            (Before (BCryptCloseAlgorithmProvider (ProviderObj 0)))) /\
  after steady_env (release_race ++ [Teardown]) caller_and_teardown
  = Some (Snapshot
            (World false (ProviderObj 0) true 1 1%nat []
                   [Opened 0; Closed (ProviderObj 0)] 0%nat)
            [Before (BCryptGenRandom (ProviderObj 0) 32)]
            (Ended (Returned tt))) /\
  after steady_env (release_race ++ [Teardown; Caller 0; Caller 0]%nat)
        caller_and_teardown
  = Some (Snapshot
            (World false (ProviderObj 0) true 0 1%nat []
                   [Opened 0; Closed (ProviderObj 0); Filled (ProviderObj 0)]
                   1%nat)
            [Ended (Returned 7)]
            (Ended (Returned tt))).
Proof. repeat split; vm_compute; reflexivity. Qed.

(** C2. A schedule on which [operator()(1, 10)], and likewise
    [CustomRand<int>(1, 10)], ends by the shutdown error with
    [pending_count] one higher than it found it: the error is thrown by the
    [operator()()] that the distribution calls, after teardown has begun,
    and passes [DecrementCount] by. The destructor then waits for a count
    that stays at one. *)
Theorem range_call_leaks_pending_count :
  pending_count (shared range_caller_and_teardown) = 0 /\
  after steady_env shutdown_inside_range_call range_caller_and_teardown
  = Some (Snapshot
            (World true (ProviderObj 0) true 1 1%nat [0%nat] [Opened 0] 0%nat)
            [Ended (Threw ShutdownError)]
            (Before ReadPending)) /\
  after steady_env shutdown_inside_range_call CustomRand_caller_and_teardown
  = Some (Snapshot
            (World true (ProviderObj 0) true 1 1%nat [0%nat] [Opened 0] 0%nat)
            [Ended (Threw ShutdownError)]
            (Before ReadPending)) /\
  after steady_env (shutdown_inside_range_call ++ [Teardown])
        range_caller_and_teardown
  = Some (Snapshot
            (World true (ProviderObj 0) true 1 1%nat [0%nat] [Opened 0] 0%nat)
            [Ended (Threw ShutdownError)]
            Asleep) /\
  after steady_env
        (shutdown_inside_range_call ++ [Teardown; SpuriousWakeup; Teardown])
        range_caller_and_teardown
  = Some (Snapshot
            (World true (ProviderObj 0) true 1 1%nat [0%nat] [Opened 0] 0%nat)
            [Ended (Threw ShutdownError)]
            Asleep).
Proof. repeat split; vm_compute; reflexivity. Qed.

(** C4. A schedule on which the last generation leaves while the
    destructor waits: the count is back to zero and [dying] is set, yet the
    destructor still sleeps and the handle is still open, and no thread can
    move. Only a wakeup that nobody sends lets the destructor go on. *)
Theorem last_exit_does_not_wake_teardown :
  after steady_env drain caller_and_teardown
  = Some (Snapshot
            (World true (ProviderObj 0) true 0 1%nat [0%nat]
                   [Opened 0; Filled (ProviderObj 0)] 1%nat)
            [Ended (Returned 7)]
            Asleep) /\
  (forall l, l <> SpuriousWakeup ->
     after steady_env (drain ++ [l]) caller_and_teardown = None) /\
  after steady_env
        (drain ++ [SpuriousWakeup; Teardown; Teardown; Teardown; Teardown])
        caller_and_teardown
  = Some (Snapshot
            (World false (ProviderObj 0) true 0 1%nat []
                   [Opened 0; Filled (ProviderObj 0); Closed (ProviderObj 0)]
                   1%nat)
            [Ended (Returned 7)]
            (Ended (Returned tt))).
Proof.
  split; [vm_compute; reflexivity|]. split; [|vm_compute; reflexivity].
  intros [[|[|i]]| |] Hl; try (vm_compute; reflexivity). congruence.
Qed.

(** ** Whole schedules *)

Lemma only_weaken (P Q : forall X : Type, action X -> Prop) {A : Type}
    (p : prog A) :
  (forall X (a : action X), P X a -> Q X a) -> only P p -> only Q p.
Proof.
  intros HPQ. induction p as [a | e | | | | X a k IH | k IH]; cbn; auto.
  intros [Ha Hk]. split; [apply HPQ; exact Ha | intros x; apply IH, Hk].
Qed.

Lemma only_bind (P : forall X : Type, action X -> Prop) {A B : Type}
    (p : prog A) (f : A -> prog B) :
  only P p -> (forall a, only P (f a)) -> only P (bind p f).
Proof.
  intros Hp Hf. induction p as [a | e | | | | X a k IH | k IH]; cbn in *; auto.
  destruct Hp as [Ha Hk]. split; [exact Ha | intros x; apply IH, Hk].
Qed.

Lemma only_try_rethrow (P : forall X : Type, action X -> Prop) {A : Type}
    (p : prog A) :
  only P p -> only P (try_catch p rethrow).
Proof.
  induction p as [a | e | | | | X a k IH | k IH]; cbn; auto.
  intros [Ha Hk]. split; [exact Ha | intros x; apply IH, Hk].
Qed.

Lemma generation_access_keeps_dying (X : Type) (a : action X) :
  generation_access X a -> keeps_dying X a.
Proof. destruct a; cbn; auto; intros []. Qed.

Lemma operator_call_accesses (Tbits : Z) :
  only generation_access (operator_call Tbits).
Proof.
  cbn. split; [exact I|]. intros [|]; cbn; [exact I|].
  split; [exact I|]. intros _. split; [exact I|].
  intros [|]; cbn.
  - split; [exact I|]. intros h. split; [exact I|]. intros n.
    split; [exact I|]. intros _. exact I.
  - split; [exact I|]. intros [|]; cbn.
    + split; [exact I|]. intros h. split; [exact I|]. intros n.
      split; [exact I|]. intros _. exact I.
    + split; [exact I|]. intros _. split; [exact I|]. intros _.
      split; [exact I|]. intros h. split; [exact I|]. intros n.
      split; [exact I|]. intros _. exact I.
Qed.

Lemma gather_accesses (P : forall X : Type, action X -> Prop)
    (Tbits : Z) (g : prog Z) (k : nat) :
  only P g -> forall acc, only P (gather Tbits g k acc).
Proof.
  intros Hg. induction k as [|k IH]; intros acc; cbn [gather]; [exact I|].
  apply only_bind; [exact Hg | intros x; apply IH].
Qed.

Lemma rejection_accesses (P : forall X : Type, action X -> Prop)
    (Tbits : Z) (g : prog Z) (n : Z) (k fuel : nat) :
  only P g -> only P (rejection Tbits fuel g n k).
Proof.
  intros Hg. induction fuel as [|fuel IH]; cbn [rejection]; [exact I|].
  apply only_bind; [apply gather_accesses; exact Hg|].
  intros r. destruct (r <? unbiased_limit Tbits n k); [exact I | exact IH].
Qed.

Lemma operator_call_range_accesses (Tbits : Z) (fuel : nat) (floor roof : Z) :
  only generation_access (operator_call_range Tbits fuel floor roof).
Proof.
  unfold operator_call_range, assert_.
  destruct (floor <? roof); [|exact I]. cbn [bind].
  apply only_bind.
  - apply only_try_rethrow. cbn. split; [exact I|].
    intros [|]; cbn; auto.
  - intros _. apply only_bind.
    + unfold uniform_int_distribution. destruct (roof <? floor); [exact I|].
      apply only_bind; [|intros r; exact I].
      apply rejection_accesses, operator_call_accesses.
    + intros number. cbn. auto.
Qed.

Lemma invoke_accesses (Tbits : Z) (fuel : nat) (e : entry_point) :
  only generation_access (invoke Tbits fuel e).
Proof.
  destruct e as [|floor roof| |floor roof|floor roof]; cbn [invoke];
    unfold GetRand, GetRand_range; try apply only_try_rethrow;
    first [apply operator_call_accesses | apply operator_call_range_accesses].
Qed.

Lemma condition_wait_accesses (P : forall X : Type, action X -> Prop)
    (fuel : nat) :
  P _ ReadPending -> only P (condition_wait fuel).
Proof.
  intros HP. induction fuel as [|fuel IH]; cbn; [exact I|].
  split; [exact HP|]. intros c. destruct (c =? 0); cbn; [exact I | exact IH].
Qed.

Lemma destructor_accesses (P : forall X : Type, action X -> Prop)
    (fuel : nat) :
  P _ (WriteDying true) ->
  P _ ReadPending ->
  P _ (WriteInitialized false) ->
  P _ ReadHandle ->
  (forall h, P _ (BCryptCloseAlgorithmProvider h)) ->
  only P (destructor fuel).
Proof.
  intros Hd Hp Hi Hh Hc. unfold destructor. cbn [bind perform_ only].
  split; [exact Hd|]. intros _.
  apply only_bind; [apply condition_wait_accesses; exact Hp|].
  intros _. cbn. auto.
Qed.

Lemma no_throw_bind (env : provider_env) {A B : Type} (p : prog A)
    (f : A -> prog B) :
  no_throw_while_alive env p ->
  (forall a, no_throw_while_alive env (f a)) ->
  no_throw_while_alive env (bind p f).
Proof.
  intros Hp Hf. induction p as [a | e | | | | X a k IH | k IH]; cbn in *; auto.
Qed.

Lemma no_throw_try_rethrow (env : provider_env) {A : Type} (p : prog A) :
  no_throw_while_alive env p ->
  no_throw_while_alive env (try_catch p rethrow).
Proof.
  induction p as [a | e | | | | X a k IH | k IH]; cbn; auto.
Qed.

Lemma operator_call_no_throw (env : provider_env) (Tbits : Z) :
  no_throw_while_alive env (operator_call Tbits).
Proof.
  cbn. intros s Hd. rewrite Hd. cbn. intros s1 _ s2 _.
  destruct (initialized s2); cbn.
  - intros s3 _ s4 _ s5 _. exact I.
  - intros s3 _. destruct (initialized s3); cbn; intros; exact I.
Qed.

Lemma gather_no_throw (env : provider_env) (Tbits : Z) (g : prog Z) (k : nat) :
  no_throw_while_alive env g ->
  forall acc, no_throw_while_alive env (gather Tbits g k acc).
Proof.
  intros Hg. induction k as [|k IH]; intros acc; cbn [gather]; [exact I|].
  apply no_throw_bind; [exact Hg | intros x; apply IH].
Qed.

Lemma rejection_no_throw_while_alive
    (env : provider_env) (Tbits : Z) (g : prog Z) (n : Z) (k fuel : nat) :
  no_throw_while_alive env g ->
  no_throw_while_alive env (rejection Tbits fuel g n k).
Proof.
  intros Hg. induction fuel as [|fuel IH]; cbn [rejection]; [exact I|].
  apply no_throw_bind; [apply gather_no_throw; exact Hg|].
  intros r. destruct (r <? unbiased_limit Tbits n k); [exact I | exact IH].
Qed.

Lemma operator_call_range_no_throw_while_alive
    (env : provider_env) (Tbits : Z) (fuel : nat) (floor roof : Z) :
  no_throw_while_alive env (operator_call_range Tbits fuel floor roof).
Proof.
  unfold operator_call_range, assert_.
  destruct (floor <? roof); [|exact I]. cbn [bind].
  apply no_throw_bind.
  - apply no_throw_try_rethrow. cbn. intros s Hd. rewrite Hd. cbn. auto.
  - intros _. apply no_throw_bind.
    + unfold uniform_int_distribution. destruct (roof <? floor); [exact I|].
      apply no_throw_bind; [|intros r; exact I].
      apply rejection_no_throw_while_alive, operator_call_no_throw.
    + intros number. cbn. auto.
Qed.

Lemma invoke_no_throw_while_alive
    (env : provider_env) (Tbits : Z) (fuel : nat) (e : entry_point) :
  no_throw_while_alive env (invoke Tbits fuel e).
Proof.
  destruct e as [|floor roof| |floor roof|floor roof]; cbn [invoke];
    unfold GetRand, GetRand_range; try apply no_throw_try_rethrow;
    first [apply operator_call_no_throw
          | apply operator_call_range_no_throw_while_alive].
Qed.

(** *** Steps and invariants *)

Lemma advance_inv (env : provider_env) {A : Type} (p p' : prog A) (s s' : world) :
  advance env p s = Some (p', s') ->
  exists (X : Type) (a : action X) (k : X -> prog A),
    p = Act a k /\
    p' = k (fst (perform env a s)) /\
    s' = snd (perform env a s).
Proof.
  destruct p as [a | e | | | | X a k | k]; cbn; try discriminate.
  destruct (perform env a s) as [x s1] eqn:E. intros H. injection H as <- <-.
  exists X, a, k. rewrite E. auto.
Qed.

Lemma set_nth_Forall {A : Type} (Q : A -> Prop) (x : A) :
  forall (l : list A) (i : nat),
    Forall Q l -> Q x -> Forall Q (set_nth i x l).
Proof.
  induction l as [|h t IH]; intros i Hl Hx; destruct i as [|i]; cbn;
    try constructor; inversion Hl as [|? ? Hh Ht]; subst; auto.
Qed.

Lemma nth_error_Forall {A : Type} (Q : A -> Prop) (l : list A) (i : nat) (x : A) :
  Forall Q l -> nth_error l i = Some x -> Q x.
Proof.
  intros Hl Hn. rewrite Forall_forall in Hl. apply Hl.
  eapply nth_error_In. exact Hn.
Qed.

Lemma exec_app (env : provider_env) (s1 s2 : list label) :
  forall c,
    exec env (s1 ++ s2) c =
    match exec env s1 c with
    | Some c1 => exec env s2 c1
    | None => None
    end.
Proof.
  induction s1 as [|l s1 IH]; intros c; cbn; [reflexivity|].
  destruct (step env l c); [apply IH | reflexivity].
Qed.

(** A property of configurations kept by every step of a kind is kept by
    every schedule of steps of this kind. *)
Lemma exec_invariant (env : provider_env) (L : label -> bool)
    (Inv : config -> Prop) :
  (forall l c c', L l = true -> Inv c -> step env l c = Some c' -> Inv c') ->
  forall schedule c c',
    forallb L schedule = true ->
    Inv c -> exec env schedule c = Some c' -> Inv c'.
Proof.
  intros Hstep. induction schedule as [|l rest IH]; intros c c' HL Hc Hex;
    cbn in *.
  - injection Hex as <-. exact Hc.
  - apply andb_prop in HL as [Hl Hrest].
    destruct (step env l c) as [c1|] eqn:Hs; [|discriminate].
    eapply IH; [exact Hrest | | exact Hex].
    eapply Hstep; eassumption.
Qed.

Lemma forallb_any (schedule : list label) :
  forallb (fun _ => true) schedule = true.
Proof. induction schedule; auto. Qed.

Lemma after_inv (env : provider_env) (schedule : list label) (c : config)
    (snap : snapshot) :
  after env schedule c = Some snap ->
  exists c', exec env schedule c = Some c' /\ observe c' = snap.
Proof.
  unfold after. destruct (exec env schedule c) as [c'|]; cbn; [|discriminate].
  intros H. injection H as <-. eauto.
Qed.

(** Threads that only make accesses of a kind keep, step after step, what
    each access of this kind keeps. *)
Lemma only_invariant (env : provider_env)
    (P : forall X : Type, action X -> Prop) (R : world -> Prop) :
  (forall X (a : action X) s, P X a -> R s -> R (snd (perform env a s))) ->
  forall l c c',
    (Forall (only P) (callers c) /\ only P (teardown c)) /\ R (shared c) ->
    step env l c = Some c' ->
    (Forall (only P) (callers c') /\ only P (teardown c')) /\ R (shared c').
Proof.
  intros HR l c c' [[Hcs Ht] Hs] Hstep. destruct l as [i| |]; cbn in Hstep.
  - destruct (nth_error (callers c) i) as [p|] eqn:Hn; [|discriminate].
    destruct (advance env p (shared c)) as [[p' s']|] eqn:Ha; [|discriminate].
    injection Hstep as <-. cbn.
    apply advance_inv in Ha as (X & a & k & -> & -> & ->).
    pose proof (nth_error_Forall _ _ _ _ Hcs Hn) as [Hpa Hk].
    repeat split; [apply set_nth_Forall; auto | exact Ht | apply HR; auto].
  - destruct (advance env (teardown c) (shared c)) as [[p' s']|] eqn:Ha;
      [|discriminate].
    injection Hstep as <-. cbn.
    apply advance_inv in Ha as (X & a & k & Hp & -> & ->).
    rewrite Hp in Ht. destruct Ht as [Hpa Hk].
    repeat split; [exact Hcs | apply Hk | apply HR; auto].
  - destruct (teardown c) as [| | | | | |k] eqn:Hp; cbn in Hstep;
      try discriminate.
    injection Hstep as <-. cbn. repeat split; auto.
Qed.

Lemma perform_keeps_dying (env : provider_env) (X : Type) (a : action X)
    (s : world) :
  keeps_dying X a -> dying s = true -> dying (snd (perform env a s)) = true.
Proof.
  destruct a; cbn; auto.
  destruct (open_succeeds env (length (calls s))); auto.
Qed.

Lemma remove_handle_address (l : list nat) :
  remove_handle AddrOfHandleField l = l.
Proof. reflexivity. Qed.

Lemma perform_generation_access (env : provider_env) (X : Type) (a : action X)
    (s0 s : world) :
  generation_access X a ->
  dying s = dying s0 /\ incl (live s0) (live s) ->
  dying (snd (perform env a s)) = dying s0 /\
  incl (live s0) (live (snd (perform env a s))).
Proof.
  intros Ha [Hd Hl]. destruct a; cbn in *; auto; try contradiction.
  - destruct (open_succeeds env (length (calls s))); cbn; auto.
    split; [exact Hd | apply incl_appl; exact Hl].
  - subst arg. auto.
Qed.

Lemma invoke_all_accesses (Tbits : Z) (fuel : nat) (es : list entry_point) :
  Forall (only generation_access) (map (invoke Tbits fuel) es).
Proof.
  induction es as [|e es IH]; cbn; constructor;
    [apply invoke_accesses | exact IH].
Qed.

Lemma invoke_all_no_throw
    (env : provider_env) (Tbits : Z) (fuel : nat) (es : list entry_point) :
  Forall (no_throw_while_alive env) (map (invoke Tbits fuel) es).
Proof.
  induction es as [|e es IH]; cbn; constructor;
    [apply invoke_no_throw_while_alive | exact IH].
Qed.

(** A caller's step keeps [dying] and every open handle, whatever the
    callers are doing, as long as they make generation accesses only. *)
Lemma caller_step_keeps (env : provider_env) (s0 : world) (l : label)
    (c c' : config) :
  caller_step l = true ->
  Forall (only generation_access) (callers c) /\
  (dying (shared c) = dying s0 /\ incl (live s0) (live (shared c))) ->
  step env l c = Some c' ->
  Forall (only generation_access) (callers c') /\
  (dying (shared c') = dying s0 /\ incl (live s0) (live (shared c'))).
Proof.
  intros Hl [Hcs Hs] Hstep. destruct l as [i| |]; try discriminate.
  cbn in Hstep.
  destruct (nth_error (callers c) i) as [p|] eqn:Hn; [|discriminate].
  destruct (advance env p (shared c)) as [[p' s']|] eqn:Ha; [|discriminate].
  injection Hstep as <-. cbn.
  apply advance_inv in Ha as (X & a & k & -> & -> & ->).
  pose proof (nth_error_Forall _ _ _ _ Hcs Hn) as [Hpa Hk].
  split; [apply set_nth_Forall; auto|].
  apply perform_generation_access; assumption.
Qed.

(** A caller's step taken while [dying] is false leaves no caller at a
    thrown error. *)
Lemma caller_step_no_throw (env : provider_env) (l : label) (c c' : config) :
  caller_step l = true ->
  (Forall (only generation_access) (callers c) /\
   (dying (shared c) = false /\ incl [] (live (shared c)))) /\
  Forall (no_throw_while_alive env) (callers c) ->
  step env l c = Some c' ->
  (Forall (only generation_access) (callers c') /\
   (dying (shared c') = false /\ incl [] (live (shared c')))) /\
  Forall (no_throw_while_alive env) (callers c').
Proof.
  intros Hl [Hkeep Hnt] Hstep. split.
  - exact (caller_step_keeps env (set_dying false constructed) l c c'
             Hl Hkeep Hstep).
  - destruct l as [i| |]; try discriminate. cbn in Hstep.
    destruct (nth_error (callers c) i) as [p|] eqn:Hn; [|discriminate].
    destruct (advance env p (shared c)) as [[p' s']|] eqn:Ha; [|discriminate].
    injection Hstep as <-. cbn.
    apply advance_inv in Ha as (X & a & k & -> & -> & ->).
    apply set_nth_Forall; [exact Hnt|].
    pose proof (nth_error_Forall _ _ _ _ Hnt Hn) as Hp. cbn in Hp.
    apply Hp. tauto.
Qed.

Lemma no_throw_not_threw (env : provider_env) (ps : list (prog Z)) :
  Forall (no_throw_while_alive env) ps ->
  existsb threw (map position_of ps) = false.
Proof.
  induction 1 as [|p ps Hp _ IH]; cbn; [reflexivity|].
  rewrite IH. destruct p; cbn in *; auto. contradiction.
Qed.

(** X1. Once [dying] is set it stays set: on every schedule of generation
    calls and the destructor, a configuration that follows one in which
    [dying] is true has [dying] true. *)
Theorem dying_once_set_stays_set
    (env : provider_env) (Tbits : Z) (fuel dfuel : nat)
    (es : list entry_point) (s : world)
    (before_ then_ : list label) (snap1 snap2 : snapshot) :
  after env before_
        (Config s (map (invoke Tbits fuel) es) (destructor dfuel))
  = Some snap1 ->
  dying (seen snap1) = true ->
  after env (before_ ++ then_)
        (Config s (map (invoke Tbits fuel) es) (destructor dfuel))
  = Some snap2 ->
  dying (seen snap2) = true.
Proof.
  intros H1 Hd H2.
  apply after_inv in H1 as (c1 & Hex1 & <-).
  apply after_inv in H2 as (c2 & Hex2 & <-).
  rewrite exec_app, Hex1 in Hex2. cbn [observe seen] in *.
  assert (Hthreads :
            (Forall (only keeps_dying) (callers c1) /\
             only keeps_dying (teardown c1)) /\ True).
  { refine (exec_invariant env (fun _ => true)
              (fun c => (Forall (only keeps_dying) (callers c) /\
                         only keeps_dying (teardown c)) /\ True)
              _ before_ _ c1 (forallb_any _) _ Hex1).
    - intros l c c' _.
      apply (only_invariant env keeps_dying (fun _ => True)). auto.
    - cbn. repeat split; [|apply destructor_accesses; cbn; auto].
      eapply Forall_impl; [|apply invoke_all_accesses].
      intros p. apply only_weaken, generation_access_keeps_dying. }
  destruct Hthreads as [Hthreads _].
  refine (proj2 (exec_invariant env (fun _ => true)
            (fun c => (Forall (only keeps_dying) (callers c) /\
                       only keeps_dying (teardown c)) /\
                      dying (shared c) = true)
            _ then_ c1 c2 (forallb_any _) _ Hex2)).
  - intros l c c' _.
    apply (only_invariant env keeps_dying (fun s1 => dying s1 = true)).
    intros X a s1. apply perform_keeps_dying.
  - split; [exact Hthreads | exact Hd].
Qed.

(** X2. As long as the destructor has not moved, generation calls,
    however many and however interleaved, leave [dying] as it was and
    release no handle: every handle that was open is still open. *)
Theorem generations_release_no_handle
    (env : provider_env) (Tbits : Z) (fuel : nat) (es : list entry_point)
    (s : world) (t : prog unit) (schedule : list label) (snap : snapshot) :
  forallb caller_step schedule = true ->
  after env schedule (Config s (map (invoke Tbits fuel) es) t) = Some snap ->
  dying (seen snap) = dying s /\
  forall h, In h (live s) -> In h (live (seen snap)).
Proof.
  intros Hsched Hafter. apply after_inv in Hafter as (c' & Hex & <-).
  apply (exec_invariant env caller_step
           (fun c => Forall (only generation_access) (callers c) /\
                     (dying (shared c) = dying s /\
                      incl (live s) (live (shared c))))
           (caller_step_keeps env s) schedule _ c' Hsched) in Hex.
  - exact (proj2 Hex).
  - cbn. split; [apply invoke_all_accesses|]. split; [reflexivity|].
    apply incl_refl.
Qed.

(** X3. As long as the destructor has not moved and [dying] is false, no
    generation call, however interleaved with others, ends by a thrown
    error. *)
Theorem no_shutdown_error_before_teardown
    (env : provider_env) (Tbits : Z) (fuel : nat) (es : list entry_point)
    (s : world) (t : prog unit) (schedule : list label) (snap : snapshot) :
  dying s = false ->
  forallb caller_step schedule = true ->
  after env schedule (Config s (map (invoke Tbits fuel) es) t) = Some snap ->
  existsb threw (at_callers snap) = false.
Proof.
  intros Hd Hsched Hafter. apply after_inv in Hafter as (c' & Hex & <-).
  apply (exec_invariant env caller_step _
           (caller_step_no_throw env) schedule _ c' Hsched) in Hex.
  - cbn. eapply no_throw_not_threw. exact (proj2 Hex).
  - cbn. split; [split; [apply invoke_all_accesses|]|].
    + split; [exact Hd | intros h []].
    + apply invoke_all_no_throw.
Qed.

(** *** The shutdown gate under interleaving *)

Lemma nth_error_set_nth_same {A : Type} (x y : A) :
  forall (l : list A) (i : nat),
    nth_error l i = Some x -> nth_error (set_nth i y l) i = Some y.
Proof.
  induction l as [|h t IH]; intros [|i]; cbn; try discriminate; auto.
Qed.

Lemma nth_error_set_nth_other {A : Type} (y : A) :
  forall (l : list A) (i j : nat),
    i <> j -> nth_error (set_nth j y l) i = nth_error l i.
Proof.
  induction l as [|h t IH]; intros [|i] [|j] Hij; cbn; auto; congruence.
Qed.

(** What a step does to caller [i]: its own step takes it past the access
    it stands before, and the step of another thread leaves it where it
    is. *)
Lemma step_at_caller (env : provider_env) (i : nat) (l : label)
    (c c' : config) (p : prog Z) :
  step env l c = Some c' ->
  nth_error (callers c) i = Some p ->
  if step_of i l
  then exists (X : Type) (a : action X) (k : X -> prog Z),
         p = Act a k /\
         nth_error (callers c') i = Some (k (fst (perform env a (shared c))))
  else nth_error (callers c') i = Some p.
Proof.
  intros Hstep Hn. destruct l as [j| |]; cbn [step_of]; cbn in Hstep.
  - destruct (nth_error (callers c) j) as [pj|] eqn:Hj; [|discriminate].
    destruct (advance env pj (shared c)) as [[p' s']|] eqn:Ha; [|discriminate].
    injection Hstep as <-. cbn [shared callers].
    destruct (Nat.eqb_spec i j) as [<-|Hij].
    + rewrite Hn in Hj. injection Hj as <-.
      apply advance_inv in Ha as (X & a & k & -> & -> & ->).
      exists X, a, k. split; [reflexivity|].
      eapply nth_error_set_nth_same. exact Hn.
    + rewrite nth_error_set_nth_other by exact Hij. exact Hn.
  - destruct (advance env (teardown c) (shared c)) as [[p' s']|];
      [|discriminate].
    injection Hstep as <-. exact Hn.
  - destruct (wake (teardown c)) as [p'|]; [|discriminate].
    injection Hstep as <-. exact Hn.
Qed.

(** The step of a caller that stands before an access is enabled. *)
Lemma step_at_access (env : provider_env) (i : nat) (c : config)
    (X : Type) (a : action X) (k : X -> prog Z) :
  nth_error (callers c) i = Some (Act a k) ->
  step env (Caller i) c
  = Some (Config (snd (perform env a (shared c)))
                 (set_nth i (k (fst (perform env a (shared c)))) (callers c))
                 (teardown c)).
Proof.
  intros Hn. cbn [step]. rewrite Hn. cbn [advance].
  destruct (perform env a (shared c)) as [x s']. reflexivity.
Qed.

Lemma others_keep_caller (env : provider_env) (i : nat) (p : prog Z)
    (schedule : list label) (c c' : config) :
  forallb (not_step_of i) schedule = true ->
  exec env schedule c = Some c' ->
  nth_error (callers c) i = Some p ->
  nth_error (callers c') i = Some p.
Proof.
  intros Hsched Hex Hn.
  refine (exec_invariant env (not_step_of i)
            (fun c0 => nth_error (callers c0) i = Some p)
            _ schedule c c' Hsched Hn Hex).
  intros l c0 c1 Hl Hn0 Hstep.
  pose proof (step_at_caller env i l c0 c1 p Hstep Hn0) as H.
  unfold not_step_of in Hl. destruct (step_of i l); [discriminate | exact H].
Qed.

Lemma thrown_stays (env : provider_env) (i : nat) (x : exn)
    (schedule : list label) (c c' : config) :
  exec env schedule c = Some c' ->
  nth_error (callers c) i = Some (Throw x) ->
  nth_error (callers c') i = Some (Throw x).
Proof.
  intros Hex Hn.
  refine (exec_invariant env (fun _ => true)
            (fun c0 => nth_error (callers c0) i = Some (Throw x))
            _ schedule c c' (forallb_any _) Hn Hex).
  intros l c0 c1 _ Hn0 Hstep.
  pose proof (step_at_caller env i l c0 c1 _ Hstep Hn0) as H.
  destruct (step_of i l); [|exact H].
  destruct H as (X & a & k & Heq & _). discriminate Heq.
Qed.

Lemma cannot_throw_stays (env : provider_env) (i : nat)
    (schedule : list label) (c c' : config) :
  exec env schedule c = Some c' ->
  (exists p, nth_error (callers c) i = Some p /\ ~ can_throw p) ->
  exists p', nth_error (callers c') i = Some p' /\ ~ can_throw p'.
Proof.
  intros Hex Hn.
  refine (exec_invariant env (fun _ => true)
            (fun c0 => exists p, nth_error (callers c0) i = Some p /\
                                 ~ can_throw p)
            _ schedule c c' (forallb_any _) Hn Hex).
  intros l c0 c1 _ (p & Hn0 & Hp) Hstep.
  pose proof (step_at_caller env i l c0 c1 p Hstep Hn0) as H.
  destruct (step_of i l); [|eauto].
  destruct H as (X & a & k & -> & Hn1).
  eexists. split; [exact Hn1|]. intros Hk. apply Hp. cbn. eauto.
Qed.

Lemma alive_steps_keep_no_throw (env : provider_env) (i : nat)
    (schedule : list label) :
  forall (c c' : config) (p : prog Z),
    nth_error (callers c) i = Some p ->
    no_throw_while_alive env p ->
    alive_at_steps_of env i schedule c = true ->
    exec env schedule c = Some c' ->
    exists p', nth_error (callers c') i = Some p' /\
               no_throw_while_alive env p'.
Proof.
  induction schedule as [|l rest IH]; intros c c' p Hn Hp Halive Hex;
    cbn [exec alive_at_steps_of] in *.
  - injection Hex as <-. eauto.
  - destruct (step env l c) as [c1|] eqn:Hstep; [|discriminate].
    apply andb_prop in Halive as [Hl Hrest].
    pose proof (step_at_caller env i l c c1 p Hstep Hn) as H.
    destruct (step_of i l).
    + destruct H as (X & a & k & -> & Hn1).
      apply (IH c1 c' _ Hn1); [|exact Hrest | exact Hex].
      cbn in Hp. apply Hp. apply Bool.negb_true_iff. exact Hl.
    + apply (IH c1 c' p H Hp Hrest Hex).
Qed.

Lemma cannot_throw_not_threw {A : Type} (p : prog A) :
  ~ can_throw p -> threw (position_of p) = false.
Proof. destruct p; cbn; auto. intros H. exfalso. apply H. exact I. Qed.

Lemma no_throw_while_alive_not_threw (env : provider_env) {A : Type}
    (p : prog A) :
  no_throw_while_alive env p -> threw (position_of p) = false.
Proof. destruct p; cbn; auto. contradiction. Qed.

Lemma caller_position (c : config) (i : nat) (p : prog Z) :
  nth_error (callers c) i = Some p ->
  nth_error (at_callers (observe c)) i = Some (position_of p).
Proof. intros Hn. cbn. rewrite nth_error_map, Hn. reflexivity. Qed.

Lemma can_throw_try_rethrow {A : Type} (p : prog A) :
  can_throw (try_catch p rethrow) -> can_throw p.
Proof.
  induction p as [a | e | | | | X a k IH | k IH]; cbn; auto.
  intros [x Hx]. exists x. apply IH. exact Hx.
Qed.

(** Every entry point whose assertion passes begins with the test of
    [dying] and throws when the test reads true; the raw ones cannot throw
    once it has read false. *)
Lemma entry_test (Tbits : Z) (fuel : nat) (e : entry_point) :
  range_precondition e = true ->
  exists k,
    invoke Tbits fuel e = Act ReadDying k /\
    k true = Throw ShutdownError /\
    (raw_entry e = true -> ~ can_throw (k false)).
Proof.
  destruct (operator_call_throws_at_the_gate_only Tbits)
    as (k0 & Hk0 & Ht0 & Hn0).
  destruct e as [|floor roof| |floor roof|floor roof];
    cbn [invoke range_precondition raw_entry]; intros Hpre;
    unfold GetRand, GetRand_range, CustomRand, operator_call_range;
    rewrite ?Hpre.
  - exists k0. auto.
  - eexists. split; [reflexivity|]. split; [reflexivity | discriminate].
  - rewrite Hk0. cbn [try_catch].
    exists (fun x => try_catch (k0 x) rethrow).
    split; [reflexivity|]. split; [rewrite Ht0; reflexivity|].
    intros _ H. apply Hn0, can_throw_try_rethrow, H.
  - eexists. split; [reflexivity|]. split; [reflexivity | discriminate].
  - eexists. split; [reflexivity|]. split; [reflexivity | discriminate].
Qed.

Lemma raw_entry_precondition (e : entry_point) :
  raw_entry e = true -> range_precondition e = true.
Proof. destruct e; cbn; auto; discriminate. Qed.

(** C3, amended. Caller [i] makes a generation call beside any other
    callers and any teardown. (1) Whatever the entry point and its
    arguments, the call is at no thrown error as long as [dying] read false
    at each of its steps. (2) A raw call, [operator()()] or [GetRand()],
    whose first step, the test of [dying], is taken while [dying] is false
    is at no thrown error ever after, whatever the other threads do in the
    meantime, setting [dying] included. (3) A call whose first step is
    taken while [dying] is true, the ranged ones with the range their
    assertion demands, can take this step, is then at the shutdown error
    with the generator and the provider as they were, and stays at the
    error whatever follows. *)
Theorem shutdown_error_follows_the_entry_test
    (env : provider_env) (Tbits : Z) (fuel : nat) (e : entry_point)
    (s : world) (ps : list (prog Z)) (t : prog unit) (i : nat) :
  nth_error ps i = Some (invoke Tbits fuel e) ->
  (forall schedule snap,
     alive_at_steps_of env i schedule (Config s ps t) = true ->
     after env schedule (Config s ps t) = Some snap ->
     exists q, nth_error (at_callers snap) i = Some q /\ threw q = false) /\
  (forall pre snap1,
     forallb (not_step_of i) pre = true ->
     after env pre (Config s ps t) = Some snap1 ->
     (dying (seen snap1) = false ->
      raw_entry e = true ->
      forall post snap2,
        after env (pre ++ Caller i :: post) (Config s ps t) = Some snap2 ->
        exists q, nth_error (at_callers snap2) i = Some q /\
                  threw q = false) /\
     (dying (seen snap1) = true ->
      range_precondition e = true ->
      (exists snap2,
         after env (pre ++ [Caller i]) (Config s ps t) = Some snap2 /\
         seen snap2 = seen snap1 /\
         nth_error (at_callers snap2) i = Some (Ended (Threw ShutdownError))) /\
      (forall post snap3,
         after env (pre ++ Caller i :: post) (Config s ps t) = Some snap3 ->
         nth_error (at_callers snap3) i
         = Some (Ended (Threw ShutdownError))))).
Proof.
  intros Hi. split.
  - intros schedule snap Halive Hafter.
    apply after_inv in Hafter as (c' & Hex & <-).
    destruct (alive_steps_keep_no_throw env i schedule (Config s ps t) c' _
                Hi (invoke_no_throw_while_alive env Tbits fuel e) Halive Hex)
      as (p' & Hp' & Hnt).
    exists (position_of p').
    split; [apply caller_position, Hp'|].
    apply (no_throw_while_alive_not_threw env), Hnt.
  - intros pre snap1 Hpre H1. apply after_inv in H1 as (c1 & Hex1 & <-).
    pose proof (others_keep_caller env i _ pre (Config s ps t) c1
                  Hpre Hex1 Hi) as Hi1.
    cbn [observe seen]. split.
    + intros Hd Hraw post snap2 H2.
      apply after_inv in H2 as (c2 & Hex2 & <-).
      destruct (entry_test Tbits fuel e (raw_entry_precondition e Hraw))
        as (k & Hk & _ & Hn).
      rewrite Hk in Hi1.
      rewrite exec_app, Hex1 in Hex2. cbn [exec] in Hex2.
      rewrite (step_at_access env i c1 _ _ _ Hi1) in Hex2.
      cbn [perform fst snd] in Hex2. rewrite Hd in Hex2.
      destruct (cannot_throw_stays env i post _ c2 Hex2) as (p' & Hp' & Hnt).
      { exists (k false). split; [|exact (Hn Hraw)].
        cbn [callers]. eapply nth_error_set_nth_same. exact Hi1. }
      exists (position_of p').
      split; [apply caller_position, Hp' | apply cannot_throw_not_threw, Hnt].
    + intros Hd Hrange.
      destruct (entry_test Tbits fuel e Hrange) as (k & Hk & Ht & _).
      rewrite Hk in Hi1.
      pose proof (step_at_access env i c1 _ _ _ Hi1) as Hs.
      cbn [perform fst snd] in Hs. rewrite Hd, Ht in Hs.
      pose proof (nth_error_set_nth_same _ (Throw ShutdownError) _ _ Hi1)
        as Hthrown.
      split.
      * eexists. unfold after. rewrite exec_app, Hex1. cbn [exec].
        rewrite Hs. cbn [option_map]. split; [reflexivity|].
        split; [reflexivity|].
        apply (caller_position _ i (Throw ShutdownError)). exact Hthrown.
      * intros post snap3 H3. apply after_inv in H3 as (c3 & Hex3 & <-).
        rewrite exec_app, Hex1 in Hex3. cbn [exec] in Hex3.
        rewrite Hs in Hex3.
        apply (caller_position _ i (Throw ShutdownError)).
        exact (thrown_stays env i _ post _ c3 Hex3 Hthrown).
Qed.

(** [operator()(1, 10)] run to its end while [dying] is false;
    [operator()()] past its test of [dying] when the destructor sets
    [dying] and runs to its end; [operator()(1, 10)] begun after the
    destructor has set [dying]. *)
Lemma shutdown_error_follows_the_entry_test_witness :
  (exists q,
     nth_error [@Ended Z (Returned 8)] 0 = Some q /\ threw q = false) /\
  (exists q,
     nth_error [@Ended Z (Returned 7)] 0 = Some q /\ threw q = false) /\
  (exists snap2,
     after steady_env [Teardown; Caller 0%nat] range_caller_and_teardown
     = Some snap2 /\
     seen snap2
     = World true (ProviderObj 0) true 0 1%nat [0%nat] [Opened 0] 0%nat /\
     nth_error (at_callers snap2) 0 = Some (Ended (Threw ShutdownError))) /\
  nth_error [@Ended Z (Threw ShutdownError)] 0
  = Some (Ended (Threw ShutdownError)).
Proof.
  split; [|split].
  - apply (proj1 (shutdown_error_follows_the_entry_test
                    steady_env 32 3 (EpCallRange 1 10) opened_once
                    [operator_call_range 32 3 1 10] (destructor 2) 0%nat
                    eq_refl)
                 (repeat (Caller 0%nat) 9)
                 (Snapshot
                    (World true (ProviderObj 0) false 0 1%nat [0%nat]
                           [Opened 0; Filled (ProviderObj 0)] 1%nat)
                    [Ended (Returned 8)]
                    (Before (WriteDying true)))).
    + vm_compute. reflexivity.
    + vm_compute. reflexivity.
  - refine (proj1 (proj2 (shutdown_error_follows_the_entry_test
                            steady_env 32 3 EpCall opened_once
                            [operator_call 32] (destructor 2) 0%nat eq_refl)
                         []
                         (Snapshot opened_once [Before ReadDying]
                                   (Before (WriteDying true)))
                         eq_refl _)
                  eq_refl eq_refl
                  [Teardown; Teardown; Caller 0; Caller 0; Caller 0;
                   Teardown; Teardown; Teardown; Caller 0; Caller 0]%nat
                  (Snapshot
                     (World false (ProviderObj 0) true 0 1%nat []
                            [Opened 0; Closed (ProviderObj 0);
                             Filled (ProviderObj 0)] 1%nat)
                     [Ended (Returned 7)]
                     (Ended (Returned tt)))
                  _).
    + vm_compute. reflexivity.
    + vm_compute. reflexivity.
  - assert (H : after steady_env [Teardown] range_caller_and_teardown
                = Some (Snapshot
                          (World true (ProviderObj 0) true 0 1%nat [0%nat]
                                 [Opened 0] 0%nat)
                          [Before ReadDying] (Before ReadPending)))
      by (vm_compute; reflexivity).
    destruct (proj2 (proj2 (shutdown_error_follows_the_entry_test
                              steady_env 32 3 (EpCallRange 1 10) opened_once
                              [operator_call_range 32 3 1 10] (destructor 2)
                              0%nat eq_refl)
                           [Teardown] _ eq_refl H)
                    eq_refl eq_refl) as [Hnow Hlater].
    split; [exact Hnow|].
    apply (Hlater [Teardown]
             (Snapshot
                (World true (ProviderObj 0) true 0 1%nat [0%nat]
                       [Opened 0] 0%nat)
                [Ended (Threw ShutdownError)]
                (Before (WriteInitialized false)))).
    vm_compute. reflexivity.
Defined.

(** *** The count under interleaving *)

Lemma net_try_rethrow {A : Type} (p : prog A) :
  forall d, net p d -> net (try_catch p rethrow) d.
Proof.
  induction p as [a | e | | | | X a k IH | k IH]; cbn; auto.
Qed.

Lemma net_operator_call (Tbits : Z) : net (operator_call Tbits) 0.
Proof.
  cbn. intros [|]; cbn; [reflexivity|].
  intros _ [|]; cbn; [intros; reflexivity|].
  intros [|]; cbn; intros; reflexivity.
Qed.

Lemma net_raw_entries (Tbits : Z) (fuel : nat) (es : list entry_point) :
  forallb raw_entry es = true ->
  Forall2 net (map (invoke Tbits fuel) es) (map (fun _ => 0) es).
Proof.
  induction es as [|e es IH]; cbn; [constructor|].
  intros H. apply andb_prop in H as [He Hes].
  constructor; [|apply IH; exact Hes].
  destruct e; try discriminate; cbn [invoke]; unfold GetRand;
    try apply net_try_rethrow; apply net_operator_call.
Qed.

Lemma net_of_ended {A : Type} (p : prog A) (d : Z) :
  net p d -> ended (position_of p) = true -> d = 0.
Proof. destruct p; cbn; auto; discriminate. Qed.

Lemma total_of_ended (ps : list (prog Z)) (ds : list Z) :
  Forall2 net ps ds ->
  forallb ended (map position_of ps) = true ->
  total ds = 0.
Proof.
  unfold total. induction 1 as [|p d ps ds Hp _ IH]; cbn; [reflexivity|].
  intros H. apply andb_prop in H as [He Hes].
  rewrite (net_of_ended p d Hp He), (IH Hes). reflexivity.
Qed.

Lemma Forall2_set_nth {A : Type} (R : A -> Z -> Prop) (p p' : A) (delta : Z) :
  (forall d, R p d -> R p' (d - delta)) ->
  forall (l : list A) (ds : list Z) (i : nat),
    Forall2 R l ds ->
    nth_error l i = Some p ->
    exists ds',
      Forall2 R (set_nth i p' l) ds' /\ total ds' = total ds - delta.
Proof.
  unfold total. intros Hstep l ds i HF. revert i.
  induction HF as [|q d l ds Hq HF IH]; intros i Hn.
  - destruct i; discriminate.
  - destruct i as [|i]; cbn in Hn.
    + injection Hn as ->. exists ((d - delta) :: ds). cbn.
      split; [constructor; auto | lia].
    + destruct (IH i Hn) as (ds' & HF' & Ht).
      exists (d :: ds'). cbn. split; [constructor; auto | lia].
Qed.

Lemma perform_counts (env : provider_env) (X : Type) (a : action X) (s : world) :
  0 <= pending_count s < 2 ^ 64 ->
  0 <= pending_count (snd (perform env a s)) < 2 ^ 64 /\
  pending_count (snd (perform env a s)) mod 2 ^ 64
  = (pending_count s + count_change a) mod 2 ^ 64.
Proof.
  intros Hp. destruct a; cbn;
    try destruct (open_succeeds env (length (calls s))); cbn;
    rewrite ?Z.add_0_r; try (split; [exact Hp | reflexivity]);
    unfold wrap64, wrap;
    (split; [apply Z.mod_pos_bound; reflexivity | apply Z.mod_mod; lia]).
Qed.

(** Each step keeps the count, and what the callers still owe it, in
    balance. *)
Lemma step_keeps_balance (env : provider_env) (base : Z) (l : label)
    (c c' : config) :
  in_balance base c -> step env l c = Some c' -> in_balance base c'.
Proof.
  unfold in_balance. intros ((ds & HF & Hsum) & Ht & Hp) Hstep.
  destruct l as [i| |]; cbn in Hstep.
  - destruct (nth_error (callers c) i) as [p|] eqn:Hn; [|discriminate].
    destruct (advance env p (shared c)) as [[p' s']|] eqn:Ha; [|discriminate].
    injection Hstep as <-. cbn [shared callers teardown].
    apply advance_inv in Ha as (X & a & k & -> & -> & ->).
    destruct (perform_counts env X a (shared c) Hp) as [Hp' Hmod].
    destruct (Forall2_set_nth net (Act a k)
                (k (fst (perform env a (shared c)))) (count_change a)
                (fun d Hd => Hd _) (callers c) ds i HF Hn)
      as (ds' & HF' & Htot).
    split; [|split; [exact Ht | exact Hp']].
    exists ds'. split; [exact HF'|].
    rewrite Htot, <- Hsum.
    rewrite <- Z.add_mod_idemp_l, Hmod, Z.add_mod_idemp_l by lia.
    f_equal. lia.
  - destruct (advance env (teardown c) (shared c)) as [[p' s']|] eqn:Ha;
      [|discriminate].
    injection Hstep as <-. cbn [shared callers teardown].
    apply advance_inv in Ha as (X & a & k & Hq & -> & ->).
    rewrite Hq in Ht. destruct Ht as [Ha Hk]. unfold leaves_count in Ha.
    destruct (perform_counts env X a (shared c) Hp) as [Hp' Hmod].
    split; [|split; [apply Hk | exact Hp']].
    exists ds. split; [exact HF|].
    rewrite <- Hsum, <- Z.add_mod_idemp_l, Hmod, Ha, Z.add_0_r,
      Z.add_mod_idemp_l by lia.
    reflexivity.
  - destruct (teardown c) as [| | | | | |k] eqn:Hq; cbn in Hstep;
      try discriminate.
    injection Hstep as <-. cbn [shared callers teardown].
    split; [eauto | split; [exact Ht | exact Hp]].
Qed.

(** X4. Raw generations never lose count: on every schedule of
    [operator()()] and [GetRand()] calls and the destructor, once every call
    has ended, by a value or by the shutdown error, [pending_count] is
    what it was before the calls. *)
Theorem raw_generations_keep_the_count
    (env : provider_env) (Tbits : Z) (fuel dfuel : nat)
    (es : list entry_point) (s : world)
    (schedule : list label) (snap : snapshot) :
  forallb raw_entry es = true ->
  0 <= pending_count s < 2 ^ 64 ->
  after env schedule
        (Config s (map (invoke Tbits fuel) es) (destructor dfuel))
  = Some snap ->
  forallb ended (at_callers snap) = true ->
  pending_count (seen snap) = pending_count s.
Proof.
  intros Hraw Hp Hafter Hended.
  apply after_inv in Hafter as (c' & Hex & <-). cbn [observe seen at_callers] in *.
  pose proof (exec_invariant env (fun _ => true)
                (in_balance (pending_count s))
                (fun l c c1 _ => step_keeps_balance env (pending_count s) l c c1)
                schedule
                (Config s (map (invoke Tbits fuel) es) (destructor dfuel))
                c' (forallb_any _)) as Hinv.
  destruct Hinv as ((ds & HF & Hsum) & _ & Hp'); [|exact Hex|].
  - unfold in_balance. cbn [shared callers teardown].
    split; [|split; [|exact Hp]].
    + exists (map (fun _ => 0) es). split; [apply net_raw_entries; exact Hraw|].
      f_equal. assert (H0 : forall l : list entry_point,
                          total (map (fun _ => 0) l) = 0)
        by (induction l; cbn; auto).
      rewrite H0. lia.
    + apply destructor_accesses; reflexivity.
  - rewrite (total_of_ended _ _ HF Hended), Z.add_0_r in Hsum.
    rewrite !Z.mod_small in Hsum by assumption. exact Hsum.
Qed.

(** *** Teardown behind a count that stays *)

Lemma condition_wait_held_back (env : provider_env) {B : Type}
    (f : unit -> prog B) (fuel : nat) :
  held_back env (bind (condition_wait fuel) f).
Proof.
  induction fuel as [|fuel IH]; cbn; [exact I|].
  split; [exact I|]. intros s Hs.
  destruct (pending_count s =? 0) eqn:E; [apply Z.eqb_eq in E; contradiction|].
  cbn. exact IH.
Qed.

Lemma destructor_held_back (env : provider_env) (fuel : nat) :
  held_back env (destructor fuel).
Proof.
  unfold destructor. cbn [bind perform_ held_back]. split; [reflexivity|].
  intros s _. cbn [perform fst bind]. apply condition_wait_held_back.
Qed.

Lemma perform_looks_on (env : provider_env) (X : Type) (a : action X)
    (s : world) :
  looks_on X a ->
  pending_count (snd (perform env a s)) = pending_count s /\
  calls (snd (perform env a s)) = calls s /\
  live (snd (perform env a s)) = live s.
Proof. destruct a; cbn; auto; intros []. Qed.

Lemma ended_cannot_advance (env : provider_env) {A : Type} (p : prog A)
    (s : world) :
  ended (position_of p) = true -> advance env p s = None.
Proof. destruct p; cbn; auto; discriminate. Qed.

Lemma step_keeps_drained_never (env : provider_env) (s0 : world) (l : label)
    (c c' : config) :
  drained_never env s0 c -> step env l c = Some c' -> drained_never env s0 c'.
Proof.
  unfold drained_never. intros (Hh & He & Hnz & Hp & Hc & Hl) Hstep.
  destruct l as [i| |]; cbn in Hstep.
  - destruct (nth_error (callers c) i) as [p|] eqn:Hn; [|discriminate].
    assert (Hp' : ended (position_of p) = true).
    { rewrite forallb_forall in He. apply He. apply in_map.
      eapply nth_error_In. exact Hn. }
    rewrite (ended_cannot_advance env p (shared c) Hp') in Hstep.
    discriminate.
  - destruct (advance env (teardown c) (shared c)) as [[p' s']|] eqn:Ha;
      [|discriminate].
    injection Hstep as <-. cbn [shared callers teardown].
    apply advance_inv in Ha as (X & a & k & Hq & -> & ->).
    rewrite Hq in Hh. destruct Hh as [Ha Hk].
    destruct (perform_looks_on env X a (shared c) Ha) as (Hp1 & Hc1 & Hl1).
    rewrite Hp1, Hc1, Hl1. auto 10.
  - destruct (teardown c) as [| | | | | |k] eqn:Hq; cbn in Hstep;
      try discriminate.
    injection Hstep as <-. cbn [shared callers teardown]. auto 10.
Qed.

(** X5. A count that no generation is left to bring down keeps the
    destructor waiting for ever: with [pending_count] non-zero and every
    caller ended, on every schedule, whatever the number of spurious
    wakeups, the destructor does not return and the provider receives no
    call; no handle is released. *)
Theorem leaked_count_blocks_teardown
    (env : provider_env) (fuel : nat) (s : world) (ps : list (prog Z))
    (schedule : list label) (snap : snapshot) :
  pending_count s <> 0 ->
  forallb ended (map position_of ps) = true ->
  after env schedule (Config s ps (destructor fuel)) = Some snap ->
  returned (at_teardown snap) = false /\
  calls (seen snap) = calls s /\
  live (seen snap) = live s.
Proof.
  intros Hnz Hended Hafter.
  apply after_inv in Hafter as (c' & Hex & <-).
  pose proof (exec_invariant env (fun _ => true) (drained_never env s)
                (fun l c c1 _ => step_keeps_drained_never env s l c c1)
                schedule (Config s ps (destructor fuel)) c'
                (forallb_any _)) as Hinv.
  destruct Hinv as (Hh & _ & _ & _ & Hc & Hl); [|exact Hex|].
  - unfold drained_never. cbn [shared callers teardown].
    split; [apply destructor_held_back | auto].
  - cbn [observe seen at_teardown]. repeat split; try assumption.
    destruct (teardown c'); cbn in *; auto. contradiction.
Qed.

(** *** Calls in a row *)

Lemma run_generate_n (env : provider_env) (Tbits : Z) (k : nat) :
  forall s,
    dying s = false ->
    run env (generate_n Tbits k) s =
    (Returned (buffers env Tbits (draws s) k), generations env k s).
Proof.
  induction k as [|k IH]; intros s Hd; cbn [generate_n buffers generations];
    [reflexivity|].
  rewrite run_bind, run_operator_call, Hd. cbn [and_then].
  rewrite run_bind, IH by (rewrite after_generation_dying; exact Hd).
  cbn [and_then run]. rewrite after_generation_draws. reflexivity.
Qed.

Lemma generations_initialized (env : provider_env) (k : nat) :
  forall s,
    initialized s = true ->
    initialized (generations env k s) = true /\
    algorithm_handle (generations env k s) = algorithm_handle s /\
    live (generations env k s) = live s /\
    calls (generations env k s)
    = calls s ++ repeat (Filled (algorithm_handle s)) k.
Proof.
  induction k as [|k IH]; intros s Hi; cbn [generations repeat].
  - rewrite app_nil_r. auto.
  - destruct s as [i h d p n l c dr]. cbn in Hi. subst i.
    destruct (IH (after_generation env (World true h d p n l c dr)) eq_refl)
      as (H1 & H2 & H3 & H4).
    rewrite H1, H2, H3, H4. cbn. rewrite <- app_assoc. auto.
Qed.

Lemma after_generation_uninitialized (env : provider_env) (s : world) :
  initialized s = false ->
  initialized (after_generation env s) = true /\
  (if open_succeeds env (length (calls s))
   then algorithm_handle (after_generation env s) = ProviderObj (next_id s) /\
        live (after_generation env s) = live s ++ [next_id s] /\
        calls (after_generation env s)
        = calls s ++ [Opened (next_id s); Filled (ProviderObj (next_id s))]
   else algorithm_handle (after_generation env s) = algorithm_handle s /\
        live (after_generation env s) = live s /\
        calls (after_generation env s)
        = calls s ++ [OpenFailed; Filled (algorithm_handle s)]).
Proof.
  destruct s as [i h d p n l c dr]. cbn. intros ->.
  unfold after_generation. cbn.
  destruct (open_succeeds env (length c)); cbn; rewrite <- app_assoc; auto.
Qed.

(** X6. Calls of [operator()()] in a row on a live generator return the
    contents the provider's successive fills leave in the buffer, in
    order, and leave the generator initialised. The provider is opened by
    the first call only, and only if the generator was not initialised.
    When this open succeeds, every fill is handed the fresh handle; when
    it fails, the open is not tried again and every fill is handed what
    the handle member held before. *)
Theorem generations_in_a_row
    (env : provider_env) (Tbits : Z) (k : nat) (s : world) :
  dying s = false ->
  (0 < k)%nat ->
  exists s',
    run env (generate_n Tbits k) s
    = (Returned (buffers env Tbits (draws s) k), s') /\
    initialized s' = true /\
    draws s' = (draws s + k)%nat /\
    (if initialized s
     then calls s' = calls s ++ repeat (Filled (algorithm_handle s)) k /\
          live s' = live s
     else if open_succeeds env (length (calls s))
     then calls s' = calls s ++ Opened (next_id s)
                             :: repeat (Filled (ProviderObj (next_id s))) k /\
          live s' = live s ++ [next_id s]
     else calls s' = calls s ++ OpenFailed
                             :: repeat (Filled (algorithm_handle s)) k /\
          live s' = live s).
Proof.
  intros Hd Hk. exists (generations env k s).
  split; [apply run_generate_n; exact Hd|].
  rewrite generations_draws.
  destruct k as [|k]; [lia|]. cbn [generations repeat].
  destruct (initialized s) eqn:Hi.
  - destruct (generations_initialized env (S k) s Hi) as (H1 & _ & H3 & H4).
    cbn [generations repeat] in H1, H3, H4. auto.
  - destruct (after_generation_uninitialized env s Hi) as [Hi1 Hrest].
    destruct (generations_initialized env k (after_generation env s) Hi1)
      as (H1 & _ & H3 & H4).
    rewrite H1, H3, H4.
    destruct (open_succeeds env (length (calls s)));
      destruct Hrest as (Hh & Hl & Hc); rewrite Hh, Hl, Hc;
      rewrite <- app_assoc; auto.
Qed.

(** *** Forwarding entry points *)

Lemma forwards_position (p q : prog Z) :
  forwards p q -> position_of p = position_of q.
Proof. intros [-> | ->]; [reflexivity|]. destruct q; reflexivity. Qed.

Lemma forwards_advance (env : provider_env) (p q : prog Z) (s : world) :
  forwards p q ->
  match advance env p s, advance env q s with
  | Some (p', s1), Some (q', s2) => forwards p' q' /\ s1 = s2
  | None, None => True
  | _, _ => False
  end.
Proof.
  intros [-> | ->].
  - destruct (advance env q s) as [[q' s']|]; [split; [left|]; reflexivity|].
    exact I.
  - destruct q as [a | e | | | | X a k | k]; cbn; auto.
    destruct (perform env a s) as [x s']. split; [right|]; reflexivity.
Qed.

Lemma forwards_set_nth (p q : prog Z) :
  forwards p q ->
  forall (ps qs : list (prog Z)) (i : nat),
    Forall2 forwards ps qs ->
    Forall2 forwards (set_nth i p ps) (set_nth i q qs).
Proof.
  intros Hpq ps qs i HF. revert i.
  induction HF as [|p0 q0 ps qs H0 HF IH]; intros [|i]; cbn;
    constructor; auto.
Qed.

Lemma forwards_nth_error (ps qs : list (prog Z)) :
  Forall2 forwards ps qs ->
  forall i,
    match nth_error ps i, nth_error qs i with
    | Some p, Some q => forwards p q
    | None, None => True
    | _, _ => False
    end.
Proof.
  induction 1 as [|p q ps qs Hpq HF IH]; intros [|i]; cbn; auto.
  apply IH.
Qed.

Lemma forwards_after (env : provider_env) (schedule : list label) :
  forall (ps qs : list (prog Z)) (s : world) (t : prog unit),
    Forall2 forwards ps qs ->
    after env schedule (Config s ps t) = after env schedule (Config s qs t).
Proof.
  unfold after.
  induction schedule as [|l rest IH]; intros ps qs s t HF; cbn [exec].
  - cbn. unfold observe. cbn. f_equal. f_equal.
    induction HF as [|p q ps qs Hpq HF IHF]; cbn; [reflexivity|].
    rewrite (forwards_position p q Hpq), IHF. reflexivity.
  - destruct l as [i| |]; cbn [step shared callers teardown].
    + pose proof (forwards_nth_error ps qs HF i) as Hn.
      destruct (nth_error ps i) as [p|], (nth_error qs i) as [q|];
        try contradiction; [|reflexivity].
      pose proof (forwards_advance env p q s Hn) as Ha.
      destruct (advance env p s) as [[p' s1]|], (advance env q s) as [[q' s2]|];
        try contradiction; [|reflexivity].
      destruct Ha as [Hpq ->]. apply IH. apply forwards_set_nth; assumption.
    + destruct (advance env t s) as [[t' s']|]; [|reflexivity].
      apply IH. exact HF.
    + destruct (wake t) as [t'|]; [|reflexivity]. apply IH. exact HF.
Qed.

(** X7. [GetRand()] and [GetRand(floor, roof)] cannot be told from the
    call operators they forward to, their [try] and [catch] changing
    nothing: on every schedule, replacing every [GetRand] call by the call
    operator with the same arguments leaves the shared state and the
    position of every thread unchanged. *)
Theorem forwarding_entry_points_are_transparent
    (env : provider_env) (Tbits : Z) (fuel : nat) (es : list entry_point)
    (s : world) (t : prog unit) (schedule : list label) :
  after env schedule (Config s (map (invoke Tbits fuel) es) t) =
  after env schedule
        (Config s (map (invoke Tbits fuel) (map forwards_to es)) t).
Proof.
  apply forwards_after.
  induction es as [|e es IH]; cbn [map]; constructor; [|exact IH].
  destruct e; cbn [forwards_to invoke]; unfold GetRand, GetRand_range;
    first [left; reflexivity | right; reflexivity].
Qed.

(** *** Witnesses of the schedule properties *)

(** The destructor sets [dying]; a raw generation then runs into it. *)
Lemma dying_once_set_stays_set_witness :
  dying (World true (ProviderObj 0) true 0 1%nat [0%nat] [Opened 0] 0%nat)
  = true.
Proof.
  apply (dying_once_set_stays_set steady_env 32 3 2 [EpCall] opened_once
           [Teardown] [Caller 0%nat]
           (Snapshot
              (World true (ProviderObj 0) true 0 1%nat [0%nat] [Opened 0] 0%nat)
              [Before ReadDying] (Before ReadPending))
           (Snapshot
              (World true (ProviderObj 0) true 0 1%nat [0%nat] [Opened 0] 0%nat)
              [Ended (Threw ShutdownError)] (Before ReadPending))).
  - vm_compute. reflexivity.
  - reflexivity.
  - vm_compute. reflexivity.
Defined.

(** A raw and a ranged generation, interleaved, both under way. *)
Lemma generations_release_no_handle_witness :
  dying (World true (ProviderObj 0) false 2 1%nat [0%nat] [Opened 0] 0%nat)
  = dying opened_once /\
  forall h,
    In h (live opened_once) ->
    In h (live (World true (ProviderObj 0) false 2 1%nat [0%nat] [Opened 0]
                      0%nat)).
Proof.
  apply (generations_release_no_handle steady_env 32 3
           [EpCall; EpCallRange 1 10] opened_once (destructor 2)
           [Caller 0; Caller 1; Caller 1; Caller 0; Caller 0]%nat
           (Snapshot
              (World true (ProviderObj 0) false 2 1%nat [0%nat] [Opened 0] 0%nat)
              [Before ReadHandle; Before ReadDying]
              (Before (WriteDying true)))).
  - reflexivity.
  - vm_compute. reflexivity.
Defined.

(** The same two generations: neither has thrown. *)
Lemma no_shutdown_error_before_teardown_witness :
  existsb threw [@Before Z _ ReadHandle; @Before Z _ ReadDying] = false.
Proof.
  apply (no_shutdown_error_before_teardown steady_env 32 3
           [EpCall; EpCallRange 1 10] opened_once (destructor 2)
           [Caller 0; Caller 1; Caller 1; Caller 0; Caller 0]%nat
           (Snapshot
              (World true (ProviderObj 0) false 2 1%nat [0%nat] [Opened 0] 0%nat)
              [Before ReadHandle; Before ReadDying]
              (Before (WriteDying true)))).
  - reflexivity.
  - reflexivity.
  - vm_compute. reflexivity.
Defined.

(** [operator()()] and [GetRand()] enter together, the destructor sets
    [dying] while both are under way, and both run to their end. *)
Lemma raw_generations_keep_the_count_witness :
  pending_count
    (World true (ProviderObj 0) true 0 1%nat [0%nat]
           [Opened 0; Filled (ProviderObj 0); Filled (ProviderObj 0)] 2%nat)
  = pending_count opened_once.
Proof.
  apply (raw_generations_keep_the_count steady_env 32 3 2
           [EpCall; EpGetRand] opened_once
           [Caller 0; Caller 1; Caller 0; Caller 1; Teardown;
            Caller 0; Caller 0; Caller 0; Caller 0;
            Caller 1; Caller 1; Caller 1; Caller 1]%nat
           (Snapshot
              (World true (ProviderObj 0) true 0 1%nat [0%nat]
                     [Opened 0; Filled (ProviderObj 0); Filled (ProviderObj 0)]
                     2%nat)
              [Ended (Returned 7); Ended (Returned 7)]
              (Before ReadPending))).
  - reflexivity.
  - cbn. lia.
  - vm_compute. reflexivity.
  - reflexivity.
Defined.

(** The destructor behind a count of one, woken up once for nothing. *)
Lemma leaked_count_blocks_teardown_witness :
  returned (@Asleep unit) = false /\
  calls (World true (ProviderObj 0) true 1 1%nat [0%nat] [Opened 0] 0%nat)
  = calls count_left_behind /\
  live (World true (ProviderObj 0) true 1 1%nat [0%nat] [Opened 0] 0%nat)
  = live count_left_behind.
Proof.
  apply (leaked_count_blocks_teardown steady_env 2 count_left_behind
           [Throw ShutdownError]
           [Teardown; Teardown; SpuriousWakeup; Teardown]
           (Snapshot
              (World true (ProviderObj 0) true 1 1%nat [0%nat] [Opened 0] 0%nat)
              [Ended (Threw ShutdownError)] Asleep)).
  - cbn. lia.
  - reflexivity.
  - vm_compute. reflexivity.
Defined.

(** Two calls on a fresh generator. With a provider that opens: one open,
    two fills of the fresh handle, the values 7, 7. With a provider that
    refuses: one refused open, two fills handed the pointer the constructor
    left, and two values returned all the same. *)
Lemma generations_in_a_row_witness :
  (exists s',
     run steady_env (generate_n 32 2) constructed = (Returned [7; 7], s') /\
     initialized s' = true /\
     draws s' = 2%nat /\
     calls s' = [Opened 0; Filled (ProviderObj 0); Filled (ProviderObj 0)] /\
     live s' = [0%nat]) /\
  (exists s',
     run refusing_env (generate_n 32 2) constructed
     = (Returned [48879; 48879], s') /\
     initialized s' = true /\
     draws s' = 2%nat /\
     calls s' = [OpenFailed; Filled Indeterminate; Filled Indeterminate] /\
     live s' = []).
Proof.
  split.
  - apply (generations_in_a_row steady_env 32 2 constructed).
    + reflexivity.
    + lia.
  - apply (generations_in_a_row refusing_env 32 2 constructed).
    + reflexivity.
    + lia.
Defined.

(** *** The convenience function, value by value *)

(** X8. [SimpleRandom()] on a live generator returns the raw value itself
    when it is below [2^31] and [2^32] minus the raw value when it is above:
    zero apart, every result comes from two raw values, and but for the
    raw value [2^31] the result lies in [0, INT_MAX]. On a dying generator
    it throws and touches nothing. *)
Theorem SimpleRandom_folds_the_raw_value (env : provider_env) (s : world) :
  (dying s = false ->
   exists v,
     fst (run env SimpleRandom s) = Returned v /\
     (number_after 32 (env (draws s)) < 2 ^ 31 ->
      v = number_after 32 (env (draws s))) /\
     (2 ^ 31 < number_after 32 (env (draws s)) ->
      v = 2 ^ 32 - number_after 32 (env (draws s))) /\
     (number_after 32 (env (draws s)) <> 2 ^ 31 -> 0 <= v <= INT_MAX)) /\
  (dying s = true ->
   run env SimpleRandom s = (Threw ShutdownError, s)).
Proof.
  unfold SimpleRandom. rewrite run_bind, run_operator_call. split; intros Hd;
    rewrite Hd; [|reflexivity].
  cbn [and_then run fst].
  set (r := number_after 32 (env (draws s))).
  assert (Hr : 0 <= r < 2 ^ 32).
  { unfold r, number_after, wrap.
    destruct (env (draws s)); apply Z.mod_pos_bound; reflexivity. }
  assert (Hint : to_int r = if r <? 2 ^ 31 then r else r - 2 ^ 32).
  { unfold to_int, wrap. rewrite Z.mod_small by exact Hr. reflexivity. }
  exists (std_abs (to_int r)). split; [reflexivity|].
  change INT_MAX with (2 ^ 31 - 1).
  rewrite Hint. unfold std_abs.
  destruct (r <? 2 ^ 31) eqn:E; [apply Z.ltb_lt in E | apply Z.ltb_ge in E].
  - replace (r <? 0) with false by (symmetry; apply Z.ltb_ge; lia).
    repeat split; lia.
  - replace (r - 2 ^ 32 <? 0) with true by (symmetry; apply Z.ltb_lt; lia).
    unfold to_int, wrap. rewrite Z.mod_small by lia.
    destruct (- (r - 2 ^ 32) <? 2 ^ 31) eqn:E2;
      [apply Z.ltb_lt in E2 | apply Z.ltb_ge in E2]; repeat split; lia.
Qed.

(** The raw value 5 comes back as 5. *)
Lemma SimpleRandom_folds_the_raw_value_witness :
  exists v,
    fst (run five_env SimpleRandom constructed) = Returned v /\
    (5 < 2 ^ 31 -> v = 5) /\
    (2 ^ 31 < 5 -> v = 2 ^ 32 - 5) /\
    (5 <> 2 ^ 31 -> 0 <= v <= INT_MAX).
Proof.
  apply (proj1 (SimpleRandom_folds_the_raw_value five_env
                  constructed)).
  reflexivity.
Defined.

(** *** Initialisation, whatever the flag *)

(** X9. [Initialize] returns with [initialized] set, whatever the flag,
    the state and the outcome of the open; it leaves [dying] and
    [pending_count] alone and releases no handle. On a generator that is
    not initialised the flag is ignored: the provider gets one open and no
    close. When this open succeeds the handle member holds the fresh
    handle; when it fails the member keeps what it held, and [initialized]
    is set all the same. *)
Theorem Initialize_leaves_initialized
    (env : provider_env) (reinitialize : bool) (s : world) :
  exists s',
    run env (Initialize reinitialize) s = (Returned tt, s') /\
    initialized s' = true /\
    dying s' = dying s /\
    pending_count s' = pending_count s /\
    draws s' = draws s /\
    incl (live s) (live s') /\
    (initialized s = false ->
     if open_succeeds env (length (calls s))
     then calls s' = calls s ++ [Opened (next_id s)] /\
          algorithm_handle s' = ProviderObj (next_id s) /\
          live s' = live s ++ [next_id s]
     else calls s' = calls s ++ [OpenFailed] /\
          algorithm_handle s' = algorithm_handle s /\
          live s' = live s).
Proof.
  destruct s as [i h d p n l c dr]. unfold Initialize.
  destruct i, reinitialize; cbn;
    try destruct (open_succeeds env (length c)) eqn:Hok;
    try destruct (open_succeeds env (length (c ++ [Closed AddrOfHandleField])));
    cbn; eexists; (split; [reflexivity|]); cbn;
    repeat split; auto using incl_refl, incl_appl; try discriminate.
Qed.

(** A refused open on a fresh generator: [initialized] is set and the
    handle member is as the constructor left it. *)
Lemma Initialize_leaves_initialized_witness :
  exists s',
    run refusing_env (Initialize false) constructed = (Returned tt, s') /\
    initialized s' = true /\
    calls s' = [OpenFailed] /\
    algorithm_handle s' = Indeterminate /\
    live s' = [].
Proof.
  destruct (Initialize_leaves_initialized refusing_env false constructed)
    as (s' & Hrun & Hi & _ & _ & _ & _ & Hopen).
  exists s'. destruct (Hopen eq_refl) as (Hc & Hh & Hl). auto.
Defined.

(** *** Fills before teardown *)

Lemma open_in_incl (arg : pvoid) (l l' : list nat) :
  incl l l' -> open_in arg l = true -> open_in arg l' = true.
Proof.
  intros Hl. destruct arg as [|id|]; cbn; auto.
  rewrite !existsb_exists. intros (x & Hx & E). exists x. auto.
Qed.

Lemma fills_bind (env : provider_env) {A B : Type} (p : prog A)
    (f : A -> prog B) :
  (forall a sure known, fills_open_handles env sure known (f a)) ->
  forall sure known,
    fills_open_handles env sure known p ->
    fills_open_handles env sure known (bind p f).
Proof.
  intros Hf. induction p as [a | e | | | | X a k IH | k IH];
    intros sure known Hp; cbn in *; auto.
  destruct Hp as (Ha & Hok & Hk). repeat split; auto.
Qed.

Lemma fills_try_rethrow (env : provider_env) {A : Type} (p : prog A) :
  forall sure known,
    fills_open_handles env sure known p ->
    fills_open_handles env sure known (try_catch p rethrow).
Proof.
  induction p as [a | e | | | | X a k IH | k IH];
    intros sure known Hp; cbn in *; auto.
  destruct Hp as (Ha & Hok & Hk). repeat split; auto.
Qed.

Lemma operator_call_fills (env : provider_env) (Tbits : Z) :
  forall sure known,
    fills_open_handles env sure known (operator_call Tbits).
Proof.
  intros sure known. cbn.
  split; [exact I|]. split; [exact I|]. intros s0 _ _.
  destruct (dying s0); cbn; [exact I|].
  split; [exact I|]. split; [exact I|]. intros s1 _ _.
  split; [exact I|]. split; [exact I|]. intros s2 Hs2 _.
  destruct (initialized s2) eqn:Hi2; cbn.
  - rewrite Bool.orb_true_r.
    split; [exact I|]. split; [reflexivity|]. intros s3 Hs3 _.
    split; [exact I|]. split; [exact (Hs3 eq_refl)|]. intros s4 _ _.
    split; [exact I|]. split; [exact I|]. intros s5 _ _. exact I.
  - rewrite Bool.orb_false_r.
    split; [exact I|]. split; [exact I|]. intros s3 Hs3 _.
    destruct (initialized s3) eqn:Hi3; cbn.
    + rewrite Bool.orb_true_r.
      split; [exact I|]. split; [reflexivity|]. intros s4 Hs4 _.
      split; [exact I|]. split; [exact (Hs4 eq_refl)|]. intros s5 _ _.
      split; [exact I|]. split; [exact I|]. intros s6 _ _. exact I.
    + split; [exact I|]. split; [exact I|]. intros s4 _ _.
      split; [exact I|]. split; [reflexivity|]. intros s5 _ _.
      split; [exact I|]. split; [reflexivity|]. intros s6 Hs6 _.
      split; [exact I|]. split; [exact (Hs6 eq_refl)|]. intros s7 _ _.
      split; [exact I|]. split; [exact I|]. intros s8 _ _. exact I.
Qed.

Lemma gather_fills (env : provider_env) (Tbits : Z) (g : prog Z) (k : nat) :
  (forall sure known, fills_open_handles env sure known g) ->
  forall acc sure known,
    fills_open_handles env sure known (gather Tbits g k acc).
Proof.
  intros Hg. induction k as [|k IH]; intros acc sure known; cbn [gather];
    [exact I|].
  apply fills_bind; [intros x s1 k1; apply IH | apply Hg].
Qed.

Lemma rejection_fills (env : provider_env) (Tbits : Z) (g : prog Z)
    (n : Z) (k fuel : nat) :
  (forall sure known, fills_open_handles env sure known g) ->
  forall sure known,
    fills_open_handles env sure known (rejection Tbits fuel g n k).
Proof.
  intros Hg. induction fuel as [|fuel IH]; intros sure known;
    cbn [rejection]; [exact I|].
  apply fills_bind; [|apply gather_fills; exact Hg].
  intros r s1 k1. destruct (r <? unbiased_limit Tbits n k); [exact I|].
  apply IH.
Qed.

Lemma operator_call_range_fills
    (env : provider_env) (Tbits : Z) (fuel : nat) (floor roof : Z) :
  forall sure known,
    fills_open_handles env sure known
                       (operator_call_range Tbits fuel floor roof).
Proof.
  intros sure known. unfold operator_call_range, assert_.
  destruct (floor <? roof); [|exact I]. cbn [bind].
  apply fills_bind.
  - intros _ s1 k1. apply fills_bind.
    + intros number s2 k2. cbn. auto.
    + unfold uniform_int_distribution. destruct (roof <? floor); [exact I|].
      apply fills_bind; [intros r s2 k2; exact I|].
      apply rejection_fills. intros s2 k2. apply operator_call_fills.
  - apply fills_try_rethrow. cbn. repeat split.
    intros s0 _ _. destruct (dying s0); cbn; auto.
Qed.

Lemma invoke_fills
    (env : provider_env) (Tbits : Z) (fuel : nat) (e : entry_point) :
  forall sure known,
    fills_open_handles env sure known (invoke Tbits fuel e).
Proof.
  intros sure known.
  destruct e as [|floor roof| |floor roof|floor roof]; cbn [invoke];
    unfold GetRand, GetRand_range; try apply fills_try_rethrow;
    first [apply operator_call_fills | apply operator_call_range_fills].
Qed.

Lemma handle_open_after_open (s : world) :
  handle_open (provider_open true s).
Proof.
  unfold handle_open. cbn. rewrite existsb_app. cbn. rewrite Nat.eqb_refl.
  apply Bool.orb_true_iff. right. reflexivity.
Qed.

Lemma perform_keeps_handle_open (env : provider_env) (X : Type)
    (a : action X) (s : world) :
  (forall n, open_succeeds env n = true) ->
  generation_access X a ->
  incl (live s) (live (snd (perform env a s))) /\
  (handle_open s -> handle_open (snd (perform env a s))).
Proof.
  unfold handle_open.
  destruct a; cbn; intros Hopens Ha; try contradiction;
    try (split; [apply incl_refl | auto]).
  - rewrite Hopens.
    split; [apply incl_appl, incl_refl|]. intros _.
    apply (handle_open_after_open s).
  - subst arg. split; [apply incl_refl | auto].
Qed.

Lemma perform_keeps_well_formed (env : provider_env) (X : Type)
    (a : action X) (s : world) (sure : bool) (known : list nat) :
  (forall n, open_succeeds env n = true) ->
  generation_access X a ->
  fill_ok a known sure ->
  (sure = true -> handle_open s) ->
  incl known (live s) ->
  well_formed s ->
  well_formed (snd (perform env a s)) /\
  (sure_after a s sure = true -> handle_open (snd (perform env a s))).
Proof.
  intros Hopens Ha Hok Hsure Hknown [Hset Hlog].
  destruct (perform_keeps_handle_open env X a s Hopens Ha) as [Hincl Hopen].
  assert (Hlog' : forall arg, In (Filled arg) (calls s) ->
                    open_in arg (live (snd (perform env a s))) = true).
  { intros arg Hin. eapply open_in_incl; [exact Hincl | apply Hlog, Hin]. }
  unfold well_formed.
  destruct a; cbn in *; try contradiction; try (split; [split|]; auto; fail).
  - (* the test of [initialized] *)
    split; [split; auto|]. intros H. apply Bool.orb_true_iff in H as [H|H]; auto.
  - (* the open *)
    rewrite Hopens in *.
    pose proof (handle_open_after_open s) as Hnew.
    split; [split|]; auto.
    intros arg Hin. apply in_app_or in Hin as [Hin | [Hin | []]];
      [auto | discriminate].
  - (* the close of the member's address *)
    subst arg. split; [split|]; auto.
    intros arg Hin. apply in_app_or in Hin as [Hin | [Hin | []]];
      [auto | discriminate].
  - (* the fill *)
    split; [split|]; auto.
    intros arg0 Hin. apply in_app_or in Hin as [Hin | [Hin | []]]; [auto|].
    injection Hin as <-. eapply open_in_incl; [exact Hknown | exact Hok].
Qed.

Lemma thread_sound_stable (env : provider_env) (X : Type) (a : action X)
    (s : world) (p : prog Z) :
  (forall n, open_succeeds env n = true) ->
  generation_access X a ->
  thread_sound env s p ->
  thread_sound env (snd (perform env a s)) p.
Proof.
  intros Hopens Ha (sure & known & Hsure & Hknown & Hp).
  destruct (perform_keeps_handle_open env X a s Hopens Ha) as [Hincl Hopen].
  exists sure, known. repeat split; auto.
  eapply incl_tran; eassumption.
Qed.

Lemma caller_step_keeps_well_formed (env : provider_env)
    (Hopens : forall n, open_succeeds env n = true) (l : label)
    (c c' : config) :
  caller_step l = true ->
  well_formed (shared c) /\
  Forall (thread_sound env (shared c)) (callers c) ->
  step env l c = Some c' ->
  well_formed (shared c') /\
  Forall (thread_sound env (shared c')) (callers c').
Proof.
  intros Hl [Hwf Hcs] Hstep. destruct l as [i| |]; try discriminate.
  cbn in Hstep.
  destruct (nth_error (callers c) i) as [p|] eqn:Hn; [|discriminate].
  destruct (advance env p (shared c)) as [[p' s']|] eqn:Ha; [|discriminate].
  injection Hstep as <-. cbn [shared callers teardown].
  apply advance_inv in Ha as (X & a & k & -> & -> & ->).
  destruct (nth_error_Forall _ _ _ _ Hcs Hn)
    as (sure & known & Hsure & Hknown & Hga & Hok & Hk).
  destruct (perform_keeps_well_formed env X a (shared c) sure known
              Hopens Hga Hok Hsure Hknown Hwf) as [Hwf' Hsure'].
  split; [exact Hwf'|].
  apply set_nth_Forall.
  - eapply Forall_impl; [|exact Hcs].
    intros q. apply thread_sound_stable; [exact Hopens | exact Hga].
  - exists (sure_after a (shared c) sure),
      (live (snd (perform env a (shared c)))).
    repeat split; [exact Hsure' | apply incl_refl | apply Hk; assumption].
Qed.

(** X10. With a provider that refuses no open, no fill goes to a handle
    that is not open before the destructor moves: on every schedule of
    generation calls, first calls racing to initialise included, an
    initialised generator holds an open handle and every [BCryptGenRandom]
    the provider has received was handed a handle that is open. The
    hypothesis on the provider is needed: [Initialize] drops the status of
    the open, and after a refused open the fills are handed what the
    handle member held. *)
Theorem fills_go_to_open_handles_before_teardown
    (env : provider_env) (Tbits : Z) (fuel : nat) (es : list entry_point)
    (s : world) (t : prog unit) (schedule : list label) (snap : snapshot) :
  (forall n, open_succeeds env n = true) ->
  well_formed s ->
  forallb caller_step schedule = true ->
  after env schedule (Config s (map (invoke Tbits fuel) es) t) = Some snap ->
  well_formed (seen snap).
Proof.
  intros Hopens Hwf Hsched Hafter.
  apply after_inv in Hafter as (c' & Hex & <-).
  refine (proj1 (exec_invariant env caller_step
                   (fun c => well_formed (shared c) /\
                             Forall (thread_sound env (shared c)) (callers c))
                   (caller_step_keeps_well_formed env Hopens)
                   schedule _ c' Hsched _ Hex)).
  cbn [shared callers]. split; [exact Hwf|]. clear Hex.
  induction es as [|e es IH]; cbn [map]; [constructor|].
  constructor; [|exact IH].
  exists false, []. repeat split; [discriminate | intros h [] |].
  apply invoke_fills.
Qed.

(** *** The count before teardown *)

Lemma net_alive_bind (env : provider_env) (strict : bool) {A B : Type}
    (p : prog A) (f : A -> prog B) (d2 : Z) :
  (forall a, net_alive env strict (f a) d2) ->
  forall d1,
    net_alive env true p d1 ->
    net_alive env strict (bind p f) (d1 + d2).
Proof.
  intros Hf. induction p as [a | e | | | | X a k IH | k IH];
    intros d1 Hp; cbn in *; auto; try contradiction.
  - subst d1. apply Hf.
  - intros s Hd.
    replace (d1 + d2 - count_change a) with (d1 - count_change a + d2) by lia.
    apply IH, Hp, Hd.
Qed.

Lemma net_alive_try_rethrow (env : provider_env) (strict : bool) {A : Type}
    (p : prog A) :
  forall d,
    net_alive env strict p d ->
    net_alive env strict (try_catch p rethrow) d.
Proof.
  induction p as [a | e | | | | X a k IH | k IH]; cbn; auto.
Qed.

Lemma net_alive_relax (env : provider_env) {A : Type} (p : prog A) :
  forall d, net_alive env true p d -> net_alive env false p d.
Proof.
  induction p as [a | e | | | | X a k IH | k IH]; cbn; auto; contradiction.
Qed.

Lemma operator_call_net_alive (env : provider_env) (Tbits : Z) :
  net_alive env true (operator_call Tbits) 0.
Proof.
  cbn. intros s Hd. rewrite Hd. cbn. intros s1 _ s2 _.
  destruct (initialized s2); cbn.
  - intros s3 _ s4 _ s5 _. reflexivity.
  - intros s3 _. destruct (initialized s3); cbn; intros; reflexivity.
Qed.

Lemma gather_net_alive (env : provider_env) (Tbits : Z) (g : prog Z) (k : nat) :
  net_alive env true g 0 ->
  forall acc, net_alive env true (gather Tbits g k acc) 0.
Proof.
  intros Hg. induction k as [|k IH]; intros acc; cbn [gather];
    [reflexivity|].
  refine (net_alive_bind env true g _ 0 _ 0 Hg). intros x. apply IH.
Qed.

Lemma rejection_net_alive (env : provider_env) (Tbits : Z) (g : prog Z)
    (n : Z) (k fuel : nat) :
  net_alive env true g 0 ->
  net_alive env true (rejection Tbits fuel g n k) 0.
Proof.
  intros Hg. induction fuel as [|fuel IH]; cbn [rejection]; [exact I|].
  refine (net_alive_bind env true (gather Tbits g k 0) _ 0 _ 0
            (gather_net_alive env Tbits g k Hg 0)).
  intros r. destruct (r <? unbiased_limit Tbits n k); [reflexivity | exact IH].
Qed.

Lemma operator_call_range_net_alive
    (env : provider_env) (Tbits : Z) (fuel : nat) (floor roof : Z) :
  net_alive env false (operator_call_range Tbits fuel floor roof) 0.
Proof.
  unfold operator_call_range, assert_.
  destruct (floor <? roof); [|reflexivity]. cbn [bind].
  refine (net_alive_bind env false (try_catch IncrementCount rethrow)
            _ (-1) _ 1 _).
  - intros _.
    refine (net_alive_bind env false
              (uniform_int_distribution Tbits fuel floor roof
                                        (operator_call Tbits))
              _ (-1) _ 0 _).
    + intros number. cbn. intros s _. reflexivity.
    + unfold uniform_int_distribution. destruct (roof <? floor); [exact I|].
      refine (net_alive_bind env true _ _ 0 _ 0 _);
        [intros r; reflexivity|].
      apply rejection_net_alive, operator_call_net_alive.
  - cbn. intros s Hd. rewrite Hd. cbn. intros s1 _. reflexivity.
Qed.

Lemma invoke_net_alive
    (env : provider_env) (Tbits : Z) (fuel : nat) (e : entry_point) :
  net_alive env false (invoke Tbits fuel e) 0.
Proof.
  destruct e as [|floor roof| |floor roof|floor roof]; cbn [invoke];
    unfold GetRand, GetRand_range; try apply net_alive_try_rethrow;
    first [apply net_alive_relax, operator_call_net_alive
          | apply operator_call_range_net_alive].
Qed.

Lemma net_alive_of_finished (env : provider_env) {A : Type} (p : prog A)
    (d : Z) :
  net_alive env false p d -> finished (position_of p) = true -> d = 0.
Proof. destruct p; cbn; auto; discriminate. Qed.

Lemma total_of_finished (env : provider_env) (ps : list (prog Z))
    (ds : list Z) :
  Forall2 (net_alive env false) ps ds ->
  forallb finished (map position_of ps) = true ->
  total ds = 0.
Proof.
  unfold total. induction 1 as [|p d ps ds Hp _ IH]; cbn; [reflexivity|].
  intros H. apply andb_prop in H as [He Hes].
  rewrite (net_alive_of_finished env p d Hp He), (IH Hes). reflexivity.
Qed.

Lemma caller_step_keeps_balance (env : provider_env) (base : Z) (l : label)
    (c c' : config) :
  caller_step l = true ->
  in_balance_alive env base c ->
  step env l c = Some c' ->
  in_balance_alive env base c'.
Proof.
  unfold in_balance_alive.
  intros Hl (Hd & Hcs & (ds & HF & Hsum) & Hp) Hstep.
  destruct l as [i| |]; try discriminate. cbn in Hstep.
  destruct (nth_error (callers c) i) as [p|] eqn:Hn; [|discriminate].
  destruct (advance env p (shared c)) as [[p' s']|] eqn:Ha; [|discriminate].
  injection Hstep as <-. cbn [shared callers teardown].
  apply advance_inv in Ha as (X & a & k & -> & -> & ->).
  pose proof (nth_error_Forall _ _ _ _ Hcs Hn) as [Hga Hk].
  destruct (perform_counts env X a (shared c) Hp) as [Hp' Hmod].
  destruct (perform_generation_access env X a (shared c) (shared c) Hga
              (conj eq_refl (incl_refl _))) as [Hd' _].
  destruct (Forall2_set_nth (net_alive env false) (Act a k)
              (k (fst (perform env a (shared c)))) (count_change a)
              (fun d Hnet => Hnet _ Hd) (callers c) ds i HF Hn)
    as (ds' & HF' & Htot).
  split; [congruence|]. split; [apply set_nth_Forall; auto|].
  split; [|exact Hp'].
  exists ds'. split; [exact HF'|].
  rewrite Htot, <- Hsum.
  rewrite <- Z.add_mod_idemp_l, Hmod, Z.add_mod_idemp_l by lia.
  f_equal. lia.
Qed.

(** X11. As long as the destructor has not moved and [dying] is false,
    generation calls of every kind, raw or ranged and however interleaved,
    keep the count: once every call has ended, by a value or by a failed
    assertion, [pending_count] is what it was before the calls. *)
Theorem generations_keep_the_count_before_teardown
    (env : provider_env) (Tbits : Z) (fuel : nat) (es : list entry_point)
    (s : world) (t : prog unit) (schedule : list label) (snap : snapshot) :
  dying s = false ->
  0 <= pending_count s < 2 ^ 64 ->
  forallb caller_step schedule = true ->
  after env schedule (Config s (map (invoke Tbits fuel) es) t) = Some snap ->
  forallb finished (at_callers snap) = true ->
  pending_count (seen snap) = pending_count s.
Proof.
  intros Hd Hp Hsched Hafter Hfin.
  apply after_inv in Hafter as (c' & Hex & <-).
  cbn [observe seen at_callers] in *.
  pose proof (exec_invariant env caller_step
                (in_balance_alive env (pending_count s))
                (caller_step_keeps_balance env (pending_count s))
                schedule (Config s (map (invoke Tbits fuel) es) t) c'
                Hsched) as Hinv.
  destruct Hinv as (_ & _ & (ds & HF & Hsum) & Hp'); [|exact Hex|].
  - unfold in_balance_alive. cbn [shared callers].
    split; [exact Hd|]. split; [apply invoke_all_accesses|].
    split; [|exact Hp].
    exists (map (fun _ => 0) es). split.
    + clear Hex. induction es as [|e es IH]; cbn [map]; constructor;
        [apply invoke_net_alive | exact IH].
    + f_equal. assert (H0 : forall l : list entry_point,
                          total (map (fun _ => 0) l) = 0)
        by (induction l; cbn; auto).
      rewrite H0. lia.
  - rewrite (total_of_finished env _ _ HF Hfin), Z.add_0_r in Hsum.
    rewrite !Z.mod_small in Hsum by assumption. exact Hsum.
Qed.

(** Two first calls race to initialise: both open the provider, and both
    fills go to the handle that the member holds in the end. *)
Lemma fills_go_to_open_handles_before_teardown_witness :
  well_formed
    (World true (ProviderObj 1) false 2 2%nat [0%nat; 1%nat]
           [Opened 0; Opened 1; Filled (ProviderObj 1); Filled (ProviderObj 1)]
           2%nat).
Proof.
  apply (fills_go_to_open_handles_before_teardown steady_env 32 3
           [EpCall; EpCall] constructed (destructor 2)
           [Caller 0; Caller 1; Caller 0; Caller 1; Caller 0; Caller 1;
            Caller 0; Caller 1; Caller 0; Caller 1; Caller 0; Caller 1;
            Caller 0; Caller 1; Caller 0; Caller 1]%nat
           (Snapshot
              (World true (ProviderObj 1) false 2 2%nat [0%nat; 1%nat]
                     [Opened 0; Opened 1; Filled (ProviderObj 1);
                      Filled (ProviderObj 1)] 2%nat)
              [Before LockedDecrement; Before LockedDecrement]
              (Before (WriteDying true)))).
  - intros n. reflexivity.
  - split; [discriminate | intros arg []].
  - reflexivity.
  - vm_compute. reflexivity.
Defined.

(** [operator()(1, 10)] and [operator()()], step by step in turn, to
    their ends. *)
Lemma generations_keep_the_count_before_teardown_witness :
  pending_count
    (World true (ProviderObj 0) false 0 1%nat [0%nat]
           [Opened 0; Filled (ProviderObj 0); Filled (ProviderObj 0)] 2%nat)
  = pending_count opened_once.
Proof.
  apply (generations_keep_the_count_before_teardown steady_env 32 3
           [EpCallRange 1 10; EpCall] opened_once (destructor 2)
           [Caller 0; Caller 1; Caller 0; Caller 1; Caller 0; Caller 1;
            Caller 0; Caller 1; Caller 0; Caller 1; Caller 0; Caller 1;
            Caller 0; Caller 0; Caller 0]%nat
           (Snapshot
              (World true (ProviderObj 0) false 0 1%nat [0%nat]
                     [Opened 0; Filled (ProviderObj 0); Filled (ProviderObj 0)]
                     2%nat)
              [Ended (Returned 8); Ended (Returned 7)]
              (Before (WriteDying true)))).
  - reflexivity.
  - cbn. lia.
  - reflexivity.
  - vm_compute. reflexivity.
  - reflexivity.
Defined.

(** The raw value 7 of an [unsigned int] generator. *)
Lemma operator_call_between_min_and_max_witness :
  min_ <= 7 <= max_ 32.
Proof.
  apply (operator_call_between_min_and_max 32 steady_env constructed
           (World true (ProviderObj 0) false 0 1%nat [0%nat]
                  [Opened 0; Filled (ProviderObj 0)] 1%nat) 7).
  - lia.
  - reflexivity.
Defined.
